(** * PBR converter (Java LabPBR -> Bedrock MER): a shallow embedding

    This development embeds [src/converters/pbr_converter.py] (class
    [PBRConverter]) and proves properties of its texture-set discovery,
    of the two per-image transcoders, of the texture-set descriptor
    emitter, of the batch loop and of the composition of a MER map from
    separate metallic, emissive and roughness maps.

    Modelling conventions.
    - A NumPy [uint8] value is a [Z] in [0, 256); [float64] is the kernel's
      IEEE 754 binary64 type [PrimFloat.float], so every arithmetic step
      of the source is evaluated with the rounding the source has.
    - A NumPy array of shape (h, w) is a list of rows; the vectorised
      statements of the source (channel slices, masks, masked assignment)
      are embedded one by one as maps and zips over such arrays.
    - [self.conversion_stats] is a record of five unbounded integers.
    - The file system is a finite map from paths to file contents, with
      the set of paths at which a write fails; the entries below the
      source directory are given as a list, in the order the directory
      walk yields them.  An exception raised inside a [try] block is an
      [option] result that the [except] handler turns into the error
      counter and [False]. *)

From Stdlib Require Import ZArith List Bool Lia String Ascii.
From Stdlib Require Import QArith Qround Reals Lra.
From Stdlib Require Import Floats.PrimFloat Floats.SpecFloat Floats.FloatOps Uint63.
From stdpp Require Import base option list gmap strings.

Local Open Scope Z_scope.

(** ** float64 and uint8 *)

Module Float64.

(** [uint8_array / 255.0]: a byte promoted to float64 (exact). *)
Definition of_uint8 (v : Z) : float := PrimFloat.of_uint63 (Uint63.of_Z v).

(** Truncation toward zero of a finite float64; C's double-to-integer
    cast, which is what [ndarray.astype] uses. *)
Definition trunc (f : float) : Z :=
  match Prim2SF f with
  | S754_finite s m e =>
      let mag := if 0 <=? e then Z.shiftl (Zpos m) e
                 else Z.shiftr (Zpos m) (- e) in
      if s then - mag else mag
  | _ => 0
  end.

(** [.astype(np.uint8)]: truncate, then keep the low eight bits. *)
Definition astype_uint8 (f : float) : Z := trunc f mod 256.

(** [x ** 2] on a float64 array is NumPy's square, one multiplication. *)
Definition square (x : float) : float := PrimFloat.mul x x.

Definition is_nan (x : float) : bool := negb (PrimFloat.eqb x x).

(** [np.maximum(a, b)]: [a] when [a >= b] or [a] is a NaN, else [b]. *)
Definition maximum (a b : float) : float :=
  if PrimFloat.leb b a || is_nan a then a else b.

End Float64.

(** ** Pixels and arrays *)

(** One cell of [np.array(img)] for an image of mode RGBA. *)
Record rgba := RGBA { red : Z; green : Z; blue : Z; alpha : Z }.

(** One cell of a (h, w, 3) [uint8] array, saved as an image of mode RGB. *)
Record rgb := RGB { rgb_r : Z; rgb_g : Z; rgb_b : Z }.

Definition uint8 (v : Z) : Prop := 0 <= v < 256.

Definition rgba_ok (p : rgba) : Prop :=
  uint8 (red p) /\ uint8 (green p) /\ uint8 (blue p) /\ uint8 (alpha p).

Abbreviation array2 A := (list (list A)) (only parsing).

Definition amap {A B} (f : A -> B) (a : array2 A) : array2 B :=
  List.map (List.map f) a.

Definition azip {A B C} (f : A -> B -> C) (a : array2 A) (b : array2 B)
  : array2 C :=
  zip_with (zip_with f) a b.

(** [a[i, j]] *)
Definition pixel_at {A} (a : array2 A) (i j : nat) : option A :=
  match a !! i with
  | Some row => row !! j
  | None => None
  end.

(** Every cell of a decoded RGBA image holds four bytes. *)
Definition array_ok (a : array2 rgba) : Prop := Forall (Forall rgba_ok) a.

(** [np.zeros_like(a, dtype=np.uint8)] *)
Definition zeros_like {A} (a : array2 A) : array2 Z := amap (fun _ => 0) a.

(** [target[mask] = value] *)
Definition mask_fill (mask : array2 bool) (value : Z) (target : array2 Z)
  : array2 Z :=
  azip (fun (m : bool) old => if m then value else old) mask target.

(** [target[mask] = source[mask]] *)
Definition mask_copy (mask : array2 bool) (source target : array2 Z)
  : array2 Z :=
  azip (fun (ms : bool * Z) old => if fst ms then snd ms else old)
       (azip pair mask source) target.

(** [np.zeros((h, w, 3), dtype=np.uint8)] *)
Definition zeros3 {A} (a : array2 A) : array2 rgb := amap (fun _ => RGB 0 0 0) a.

(** [out[:, :, 0] = c], [out[:, :, 1] = c], [out[:, :, 2] = c] *)
Definition set_channel0 (out : array2 rgb) (c : array2 Z) : array2 rgb :=
  azip (fun px v => RGB v (rgb_g px) (rgb_b px)) out c.
Definition set_channel1 (out : array2 rgb) (c : array2 Z) : array2 rgb :=
  azip (fun px v => RGB (rgb_r px) v (rgb_b px)) out c.
Definition set_channel2 (out : array2 rgb) (c : array2 Z) : array2 rgb :=
  azip (fun px v => RGB (rgb_r px) (rgb_g px) v) out c.

(** ** Specular -> MER, the array computation of [convert_specular_to_mer] *)

Definition metallic_threshold : Z := 10.

Definition specular_to_mer_array (spec_array : array2 rgba) : array2 rgb :=
  let smoothness := amap red spec_array in
  let f0_metal := amap green spec_array in
  let emission := amap alpha spec_array in
  let mer_array := zeros3 spec_array in
  let smoothness_normalized :=
    amap (fun v => PrimFloat.div (Float64.of_uint8 v) 255.0%float) smoothness in
  let roughness_linear :=
    amap (fun x => Float64.square (PrimFloat.sub 1.0%float x))
         smoothness_normalized in
  let roughness_bedrock :=
    amap (fun x => Float64.astype_uint8 (PrimFloat.mul x 255%float))
         roughness_linear in
  let mer_array := set_channel2 mer_array roughness_bedrock in
  let metalness := zeros_like f0_metal in
  let metal_mask := amap (fun v => 230 <=? v) f0_metal in
  let metalness := mask_fill metal_mask 255 metalness in
  let f0_mask := amap (fun v => v <? 230) f0_metal in
  let above := amap (fun v => metallic_threshold <? v) f0_metal in
  let metalness := mask_copy (azip andb f0_mask above) f0_metal metalness in
  let mer_array := set_channel0 mer_array metalness in
  let emission_mask := amap (fun v => v <? 255) emission in
  let emission_bedrock := zeros_like emission in
  let emission_bedrock := mask_copy emission_mask emission emission_bedrock in
  let mer_array := set_channel1 mer_array emission_bedrock in
  mer_array.

(** ** Normal map, the array computation of [convert_normal_map] *)

Definition normal_to_bedrock_array (normal_array : array2 rgba) : array2 rgb :=
  let normal_x := amap red normal_array in
  let normal_y := amap green normal_array in
  let decode v :=
    PrimFloat.sub
      (PrimFloat.mul (PrimFloat.div (Float64.of_uint8 v) 255.0%float) 2.0%float)
      1.0%float in
  let nx_normalized := amap decode normal_x in
  let ny_normalized := amap decode normal_y in
  let nz_squared :=
    azip (fun x y =>
            PrimFloat.sub 1.0%float
              (PrimFloat.add (Float64.square x) (Float64.square y)))
         nx_normalized ny_normalized in
  let nz_squared := amap (Float64.maximum 0.0%float) nz_squared in
  let nz_normalized := amap PrimFloat.sqrt nz_squared in
  let normal_z :=
    amap (fun z =>
            Float64.astype_uint8
              (PrimFloat.mul
                 (PrimFloat.div (PrimFloat.add z 1.0%float) 2.0%float)
                 255%float))
         nz_normalized in
  let bedrock_normal := zeros3 normal_array in
  let bedrock_normal := set_channel0 bedrock_normal normal_x in
  let bedrock_normal := set_channel1 bedrock_normal normal_y in
  let bedrock_normal := set_channel2 bedrock_normal normal_z in
  bedrock_normal.

(** ** Strings and paths *)

(** Python [str] values are [string]s; slicing and suffix tests go through
    the list of characters. *)
Definition chars (s : string) : list ascii := list_ascii_of_string s.
Definition str (l : list ascii) : string := string_of_list_ascii l.

(** [s.endswith(suffix)] *)
Definition endswith (s suffix : string) : bool :=
  bool_decide (chars suffix `suffix_of` chars s).

(** [s[:-n]] for [n > 0] *)
Definition drop_last (n : nat) (s : string) : string :=
  str (take (length (chars s) - n) (chars s)).

(** [s.replace(old, '')]: every non-overlapping occurrence of [old], found
    left to right, is removed.  [skip] counts the characters of a match
    still to be dropped. *)
Fixpoint remove_all (old : list ascii) (l : list ascii) (skip : nat)
  : list ascii :=
  match l with
  | [] => []
  | c :: l' =>
      match skip with
      | S k => remove_all old l' k
      | O =>
          if bool_decide (old `prefix_of` l) && negb (bool_decide (old = []))
          then remove_all old l' (length old - 1)
          else c :: remove_all old l' 0
      end
  end.

Definition replace_with_empty (old s : string) : string :=
  str (remove_all (chars old) (chars s) 0).

(** A [pathlib.Path] is the list of its components, outermost first. *)
Abbreviation path := (list string) (only parsing).

(** The components a joined string contributes: split at "/", empty and "."
    components dropped. *)
Fixpoint split_slash (l : list ascii) (cur : list ascii) : list string :=
  match l with
  | [] => [str cur]
  | c :: l' =>
      if Ascii.eqb c "/"%char then str cur :: split_slash l' []
      else split_slash l' (cur ++ [c])
  end.

Definition components (s : string) : list string :=
  List.filter (fun x => negb (String.eqb x "" || String.eqb x "."))
              (split_slash (chars s) []).

(** [p / s]; an absolute right operand replaces [p]. *)
Definition path_join (p : path) (s : string) : path :=
  if bool_decide (["/"%char] `prefix_of` chars s)
  then "/"%string :: components s
  else p ++ components s.

(** [p.name] *)
Definition path_name (p : path) : string :=
  match List.last p ""%string with
  | "/"%string => ""
  | n => n
  end.

(** [p.parent] *)
Definition path_parent (p : path) : path :=
  match p with
  | [] => []
  | ["/"%string] => ["/"%string]
  | _ => removelast p
  end.

(** Position of the last "." of a name, [None] when there is none
    ([name.rfind('.')]). *)
Fixpoint rfind_dot (l : list ascii) (i : nat) (found : option nat)
  : option nat :=
  match l with
  | [] => found
  | c :: l' =>
      rfind_dot l' (S i) (if Ascii.eqb c "."%char then Some i else found)
  end.

(** [p.stem]: the name without its last suffix; a leading or a trailing dot
    starts no suffix. *)
Definition stem_of_name (name : string) : string :=
  match rfind_dot (chars name) 0 None with
  | Some i =>
      if (0 <? i)%nat && (i <? length (chars name) - 1)%nat
      then str (take i (chars name))
      else name
  | None => name
  end.

Definition path_stem (p : path) : string := stem_of_name (path_name p).

(** ** Python dictionaries, in insertion order *)

Abbreviation dict V := (list (string * V)) (only parsing).

Section Dict.
Context {V : Type}.

Fixpoint dict_get (k : string) (d : dict V) : option V :=
  match d with
  | [] => None
  | (k', v) :: d' => if String.eqb k k' then Some v else dict_get k d'
  end.

(** [k in d] *)
Definition dict_mem (k : string) (d : dict V) : bool :=
  match dict_get k d with Some _ => true | None => false end.

(** [d[k] = v]: an existing key keeps its place, a new key goes last. *)
Fixpoint dict_set (k : string) (v : V) (d : dict V) : dict V :=
  match d with
  | [] => [(k, v)]
  | (k', v') :: d' =>
      if String.eqb k k' then (k, v) :: d' else (k', v') :: dict_set k v d'
  end.

(** In-place update of the value stored under [k] ([d[k][...] = ...]). *)
Fixpoint dict_alter (f : V -> V) (k : string) (d : dict V) : dict V :=
  match d with
  | [] => []
  | (k', v') :: d' =>
      if String.eqb k k' then (k', f v') :: d'
      else (k', v') :: dict_alter f k d'
  end.

Definition dict_keys (d : dict V) : list string := List.map fst d.
End Dict.

(** ** Texture-set discovery: [detect_pbr_textures] *)

(** [texture_dir.glob("**/*<ext>")] over the entries found below the
    directory, in the order the directory walk yields them. *)
Definition glob_ext (tree : list path) (ext : string) : list path :=
  List.filter (fun p => endswith (path_name p) ext) tree.

Definition texture_extensions : list string :=
  [".png"; ".jpg"; ".jpeg"; ".tga"]%string.

Definition texture_files (tree : list path) : list path :=
  List.concat (List.map (glob_ext tree) texture_extensions).

Definition excluded_suffixes : list string :=
  ["_s"; "_n"; "_e"; "_r"; "_m"; "_mer"; "_normal"]%string.

(** [if b not in pbr_sets: pbr_sets[b] = {}] then [pbr_sets[b][role] = f] *)
Definition add_component (base role : string) (f : path)
    (pbr_sets : dict (dict path)) : dict (dict path) :=
  let pbr_sets :=
    if dict_mem base pbr_sets then pbr_sets else dict_set base [] pbr_sets in
  dict_alter (dict_set role f) base pbr_sets.

(** One iteration of the loop over [texture_files]. *)
Definition detect_step (pbr_sets : dict (dict path)) (texture_file : path)
  : dict (dict path) :=
  let name := path_stem texture_file in
  if endswith name "_s" then
    add_component (drop_last 2 name) "specular" texture_file pbr_sets
  else if endswith name "_n" then
    add_component (drop_last 2 name) "normal" texture_file pbr_sets
  else if negb (existsb (endswith name) excluded_suffixes) then
    add_component name "diffuse" texture_file pbr_sets
  else pbr_sets.

(** The final dictionary comprehension. *)
Definition has_pbr_component (v : dict path) : bool :=
  dict_mem "specular" v || dict_mem "normal" v.

Definition detect_pbr_textures (tree : list path) : dict (dict path) :=
  let pbr_sets := fold_left detect_step (texture_files tree) [] in
  List.filter (fun kv => has_pbr_component (snd kv)) pbr_sets.

(** ** Images, files and the file system *)

(** A decoded image with its Pillow mode; of Pillow's modes the three-
    and four-channel colour modes and the grey mode are modelled. *)
Inductive image :=
| ImageRGBA (a : array2 rgba)
| ImageRGB (a : array2 rgb)
| ImageL (a : array2 Z).

(** [img.convert('RGBA')]: an RGB or grey image gets an opaque alpha. *)
Definition convert_RGBA (img : image) : array2 rgba :=
  match img with
  | ImageRGBA a => a
  | ImageRGB a => amap (fun p => RGBA (rgb_r p) (rgb_g p) (rgb_b p) 255) a
  | ImageL a => amap (fun v => RGBA v v v 255) a
  end.

(** The value [json.dump] receives. *)
#[warnings="-register-all"]
Inductive json :=
| JString (s : string)
| JObject (members : list (string * json)).

(** What a path holds: an image Pillow can decode, a JSON document, or
    anything else (a corrupted or foreign file). *)
Inductive file :=
| FileImage (img : image)
| FileJson (j : json)
| FileOther.

(** The files of the file system, and the paths where creating a directory
    or a file fails (permissions, a full disk, a file in the way). *)
Record filesystem := Filesystem {
  files : gmap path file;
  unwritable : gset path
}.

(** [Image.open(p)] followed by decoding; [None] stands for the exception
    raised on a missing or undecodable file. *)
Definition image_open (fs : filesystem) (p : path) : option image :=
  match files fs !! p with
  | Some (FileImage img) => Some img
  | _ => None
  end.

(** [d.mkdir(parents=True, exist_ok=True)] *)
Definition mkdir_p (d : path) (fs : filesystem) : option filesystem :=
  if bool_decide (d ∈ unwritable fs) then None else Some fs.

(** Creating or replacing the file at [p]. *)
Definition write_file (p : path) (c : file) (fs : filesystem)
  : option filesystem :=
  if bool_decide (p ∈ unwritable fs) then None
  else Some (Filesystem (<[p := c]> (files fs)) (unwritable fs)).

(** ** Converter state *)

Record conversion_stats := Stats {
  specular_converted : Z;
  normal_converted : Z;
  mer_generated : Z;
  texture_sets_created : Z;
  errors : Z
}.

(** [__init__] and [reset_stats] *)
Definition reset_stats : conversion_stats := Stats 0 0 0 0 0.

(** The converter object's counters together with the file system. *)
Record state := State {
  stats : conversion_stats;
  fs : filesystem
}.

Definition incr_specular_converted (c : conversion_stats) : conversion_stats :=
  Stats (specular_converted c + 1) (normal_converted c) (mer_generated c)
        (texture_sets_created c) (errors c).
Definition incr_normal_converted (c : conversion_stats) : conversion_stats :=
  Stats (specular_converted c) (normal_converted c + 1) (mer_generated c)
        (texture_sets_created c) (errors c).
Definition incr_mer_generated (c : conversion_stats) : conversion_stats :=
  Stats (specular_converted c) (normal_converted c) (mer_generated c + 1)
        (texture_sets_created c) (errors c).
Definition incr_texture_sets_created (c : conversion_stats) : conversion_stats :=
  Stats (specular_converted c) (normal_converted c) (mer_generated c)
        (texture_sets_created c + 1) (errors c).
Definition incr_errors (c : conversion_stats) : conversion_stats :=
  Stats (specular_converted c) (normal_converted c) (mer_generated c)
        (texture_sets_created c) (errors c + 1).

(** [try: body ... return True / except Exception: errors += 1; return False].
    No body below changes the state before its last raising statement, so
    the handler runs on the state the call started from. *)
Definition try_except (body : state -> option state) (st : state)
  : bool * state :=
  match body st with
  | Some st' => (true, st')
  | None => (false, State (incr_errors (stats st)) (fs st))
  end.

(** ** The two transcoders *)

Definition convert_specular_to_mer (specular_path mer_path : path)
  : state -> bool * state :=
  try_except (fun st =>
    specular_img ← image_open (fs st) specular_path;
    let spec_array := convert_RGBA specular_img in
    let mer_array := specular_to_mer_array spec_array in
    let mer_img := ImageRGB mer_array in
    fs1 ← mkdir_p (path_parent mer_path) (fs st);
    fs2 ← write_file mer_path (FileImage mer_img) fs1;
    Some (State (incr_mer_generated (incr_specular_converted (stats st))) fs2)).

Definition convert_normal_map (normal_path output_path : path)
  : state -> bool * state :=
  try_except (fun st =>
    normal_img ← image_open (fs st) normal_path;
    let normal_array := convert_RGBA normal_img in
    let bedrock_normal := normal_to_bedrock_array normal_array in
    let normal_img_out := ImageRGB bedrock_normal in
    fs1 ← mkdir_p (path_parent output_path) (fs st);
    fs2 ← write_file output_path (FileImage normal_img_out) fs1;
    Some (State (incr_normal_converted (stats st)) fs2)).

(** ** The texture-set descriptor: [create_texture_set_json] *)

Definition texture_set_json (texture_name : string) (has_mer has_normal : bool)
  : json :=
  let inner : dict json := [("color"%string, JString texture_name)] in
  let inner :=
    if has_mer
    then dict_set "metalness_emissive_roughness"
                  (JString (texture_name +:+ "_mer")) inner
    else inner in
  let inner :=
    if has_normal
    then dict_set "normal" (JString (texture_name +:+ "_normal")) inner
    else inner in
  JObject [("format_version"%string, JString "1.16.100");
           ("minecraft:texture_set"%string, JObject inner)].

Definition texture_set_json_path (texture_name : string) (output_dir : path)
  : path :=
  if negb (String.eqb (path_name output_dir) "blocks")
  then path_join (path_join (path_parent (path_parent output_dir)) "blocks")
                 (texture_name +:+ ".texture_set.json")
  else path_join output_dir (texture_name +:+ ".texture_set.json").

Definition create_texture_set_json (texture_name : string) (output_dir : path)
    (has_mer has_normal : bool) : state -> bool * state :=
  try_except (fun st =>
    let texture_set := texture_set_json texture_name has_mer has_normal in
    fs1 ← (if negb (String.eqb (path_name output_dir) "blocks")
           then mkdir_p (path_join (path_parent (path_parent output_dir))
                                   "blocks") (fs st)
           else Some (fs st));
    let json_path := texture_set_json_path texture_name output_dir in
    fs2 ← mkdir_p (path_parent json_path) fs1;
    fs3 ← write_file json_path (FileJson texture_set) fs2;
    Some (State (incr_texture_sets_created (stats st)) fs3)).

(** ** The batch loop: [convert_pbr_textures] *)

(** The Bedrock base name of a set: the mapped name of its diffuse texture
    without ".png" and ".tga", or the set name itself. *)
Definition bedrock_base_name_of (texture_mappings : option (gmap string string))
    (set_name : string) : string :=
  let diffuse_name := set_name +:+ ".png" in
  match texture_mappings ≫= (fun m => m !! diffuse_name) with
  | Some bedrock_diffuse_name =>
      replace_with_empty ".tga" (replace_with_empty ".png" bedrock_diffuse_name)
  | None => set_name
  end.

(** The body of the loop over [pbr_sets.items()]. *)
Definition process_set (bedrock_textures_dir : path)
    (texture_mappings : option (gmap string string))
    (st : state) (item : string * dict path) : state :=
  let '(set_name, components) := item in
  let bedrock_base_name := bedrock_base_name_of texture_mappings set_name in
  let blocks := path_join bedrock_textures_dir "blocks" in
  let '(has_mer, st) :=
    match dict_get "specular" components with
    | Some specular_path =>
        let mer_path := path_join blocks (bedrock_base_name +:+ "_mer.png") in
        convert_specular_to_mer specular_path mer_path st
    | None => (false, st)
    end in
  let '(has_normal, st) :=
    match dict_get "normal" components with
    | Some normal_path =>
        let normal_out_path :=
          path_join blocks (bedrock_base_name +:+ "_normal.png") in
        convert_normal_map normal_path normal_out_path st
    | None => (false, st)
    end in
  if has_mer || has_normal
  then snd (create_texture_set_json bedrock_base_name blocks
                                     has_mer has_normal st)
  else st.

(** The loop itself, over any dictionary of sets. *)
Definition convert_sets (bedrock_textures_dir : path)
    (texture_mappings : option (gmap string string))
    (pbr_sets : dict (dict path)) (st : state) : state :=
  fold_left (process_set bedrock_textures_dir texture_mappings) pbr_sets st.

(** [java_tree] lists what lies below [java_textures_dir]. *)
Definition convert_pbr_textures (java_tree : list path)
    (bedrock_textures_dir : path)
    (texture_mappings : option (gmap string string)) (st : state) : state :=
  let pbr_sets := detect_pbr_textures java_tree in
  match pbr_sets with
  | [] => st
  | _ => convert_sets bedrock_textures_dir texture_mappings pbr_sets st
  end.

(** The loop body in its two parts.  First the two transcoder calls with
    the flags they set (lines 296-315). *)
Definition transcode_set (bedrock_textures_dir : path)
    (texture_mappings : option (gmap string string))
    (st : state) (item : string * dict path) : bool * bool * state :=
  let '(set_name, components) := item in
  let bedrock_base_name := bedrock_base_name_of texture_mappings set_name in
  let blocks := path_join bedrock_textures_dir "blocks" in
  let '(has_mer, st) :=
    match dict_get "specular" components with
    | Some specular_path =>
        let mer_path := path_join blocks (bedrock_base_name +:+ "_mer.png") in
        convert_specular_to_mer specular_path mer_path st
    | None => (false, st)
    end in
  let '(has_normal, st) :=
    match dict_get "normal" components with
    | Some normal_path =>
        let normal_out_path :=
          path_join blocks (bedrock_base_name +:+ "_normal.png") in
        convert_normal_map normal_path normal_out_path st
    | None => (false, st)
    end in
  (has_mer, has_normal, st).

(** Then the emitter as the program calls it, behind its guard (lines
    317-319): [if has_mer or has_normal: self.create_texture_set_json(...)].
    This is the only call of [create_texture_set_json]. *)
Definition emit_texture_set (bedrock_base_name : string) (blocks_dir : path)
    (has_mer has_normal : bool) (st : state) : state :=
  if has_mer || has_normal
  then snd (create_texture_set_json bedrock_base_name blocks_dir
                                     has_mer has_normal st)
  else st.

(** ** Per-pixel functions

    The vectorised transcoders act on each cell independently; these are
    the functions they apply to one cell, read off the array code. *)

Definition roughness_of (r : Z) : Z :=
  Float64.astype_uint8
    (PrimFloat.mul
       (Float64.square
          (PrimFloat.sub 1.0%float
             (PrimFloat.div (Float64.of_uint8 r) 255.0%float)))
       255%float).

Definition metalness_of (g : Z) : Z :=
  if (g <? 230) && (metallic_threshold <? g) then g
  else if 230 <=? g then 255 else 0.

Definition emissive_of (a : Z) : Z := if a <? 255 then a else 0.

Definition mer_pixel (p : rgba) : rgb :=
  RGB (metalness_of (green p)) (emissive_of (alpha p)) (roughness_of (red p)).

Definition decode_axis (v : Z) : float :=
  PrimFloat.sub
    (PrimFloat.mul (PrimFloat.div (Float64.of_uint8 v) 255.0%float) 2.0%float)
    1.0%float.

Definition normal_z_of (x y : Z) : Z :=
  Float64.astype_uint8
    (PrimFloat.mul
       (PrimFloat.div
          (PrimFloat.add
             (PrimFloat.sqrt
                (Float64.maximum 0.0%float
                   (PrimFloat.sub 1.0%float
                      (PrimFloat.add (Float64.square (decode_axis x))
                                     (Float64.square (decode_axis y))))))
             1.0%float)
          2.0%float)
       255%float).

Definition normal_pixel (p : rgba) : rgb :=
  RGB (red p) (green p) (normal_z_of (red p) (green p)).

(** Integer closed forms of the two float pipelines on bytes. *)
Definition roughness_floor (r : Z) : Z := ((255 - r) * (255 - r)) / 255.

Definition radicand (x y : Z) : Z :=
  Z.max 0 (255 * 255 - (2 * x - 255) * (2 * x - 255)
                     - (2 * y - 255) * (2 * y - 255)).

Definition normal_z_floor (x y : Z) : Z := (255 + Z.sqrt (radicand x y)) / 2.

Definition bytes : list Z := List.map Z.of_nat (seq 0 256).

(** ** The formulas as the specification words them *)

(** Rounding to the nearest integer, ties to the even one (Python's and
    NumPy's [round]). *)
Definition Qround_half_even (q : Q) : Z :=
  let f := Qfloor q in
  match Qcompare (q - inject_Z f) (1 # 2) with
  | Lt => f
  | Gt => f + 1
  | Eq => if Z.even f then f else f + 1
  end.

Definition clamp_uint8 (v : Z) : Z := Z.max 0 (Z.min 255 v).

(** [(1 - R/255)^2 * 255], exactly. *)
Definition roughness_exact (r : Z) : Q :=
  ((1 - inject_Z r / 255) * (1 - inject_Z r / 255) * 255)%Q.

(** "round(roughness_linear * 255) clamped to [0,255]" *)
Definition roughness_rounded (r : Z) : Z :=
  clamp_uint8 (Qround_half_even (roughness_exact r)).

(** [((nz + 1)/2) * 255] with [nz = sqrt(max(0, 1 - nx^2 - ny^2))], over
    the reals. *)
Definition normal_z_exact (x y : Z) : R :=
  let nx := (IZR x / 255 * 2 - 1)%R in
  let ny := (IZR y / 255 * 2 - 1)%R in
  let nz := R_sqrt.sqrt (Rmax 0 (1 - nx * nx - ny * ny)) in
  ((nz + 1) / 2 * 255)%R.

(** [j[k]] for a JSON object. *)
Definition json_member (k : string) (j : json) : option json :=
  match j with
  | JObject members => dict_get k members
  | JString _ => None
  end.

(** ** Vocabulary for statements about the batch loop *)

(** The paths one iteration of the loop may write. *)
Definition item_outputs (bedrock_textures_dir : path)
    (texture_mappings : option (gmap string string))
    (item : string * dict path) : list path :=
  let b := bedrock_base_name_of texture_mappings (fst item) in
  let blocks := path_join bedrock_textures_dir "blocks" in
  [path_join blocks (b +:+ "_mer.png");
   path_join blocks (b +:+ "_normal.png");
   texture_set_json_path b blocks].











(** ** Vocabulary for statements about discovery *)

(** [pbr_sets[base][role]], when both keys are present. *)
Definition lookup_component (pbr_sets : dict (dict path)) (base role : string)
  : option path :=
  dict_get base pbr_sets ≫= dict_get role.

(** The classification of a file by its stem, as the specification words
    it: "_s" gives role specular and "_n" role normal under the stem
    without the suffix; a stem with none of the seven suffixes gives role
    diffuse under the whole stem. *)
Definition classified_as (f : path) (base role : string) : Prop :=
  (role = "specular"%string /\ path_stem f = base +:+ "_s") \/
  (role = "normal"%string /\ path_stem f = base +:+ "_n") \/
  (role = "diffuse"%string /\ path_stem f = base /\
   existsb (endswith base) excluded_suffixes = false).

(** The suffixes of maps this path does not handle. *)
Definition ignored_suffixes : list string :=
  ["_e"; "_r"; "_m"; "_mer"; "_normal"]%string.

(** The loop invariant of discovery: the dictionary built from the files
    [seen] so far has one entry per base name and holds exactly the
    components those files are classified as. *)
Definition discovered (pbr_sets : dict (dict path)) (seen : list path) : Prop :=
  NoDup (dict_keys pbr_sets) /\
  (forall base role f,
      lookup_component pbr_sets base role = Some f ->
      f ∈ seen /\ classified_as f base role) /\
  (forall base role f,
      f ∈ seen -> classified_as f base role ->
      is_Some (lookup_component pbr_sets base role)).

(** ** Vocabulary for statements about whole runs *)

(** The counters [c'] are [c] after at most [n] sets were processed: no
    counter went down; [specular_converted] and [mer_generated] rose
    together, each of them, [normal_converted] and [texture_sets_created]
    by at most [n], [errors] by at most [3 * n]; and no more descriptors
    were created than maps were produced. *)
Definition counters_advance (n : Z) (c c' : conversion_stats) : Prop :=
  0 <= specular_converted c' - specular_converted c <= n /\
  0 <= normal_converted c' - normal_converted c <= n /\
  mer_generated c' - mer_generated c
  = specular_converted c' - specular_converted c /\
  0 <= texture_sets_created c' - texture_sets_created c <= n /\
  0 <= errors c' - errors c <= 3 * n /\
  texture_sets_created c' - texture_sets_created c
  <= (mer_generated c' - mer_generated c)
     + (normal_converted c' - normal_converted c).

(** The file system [fs2] is [fs1] with at most the paths [outs] written:
    the same unwritable paths, every other path as it was, and no file
    gone. *)
Definition fs_extends (outs : list path) (fs1 fs2 : filesystem) : Prop :=
  unwritable fs2 = unwritable fs1 /\
  (forall p, p ∉ outs -> files fs2 !! p = files fs1 !! p) /\
  (forall p, is_Some (files fs1 !! p) -> is_Some (files fs2 !! p)).

(** ** MER from separate maps: [generate_mer_from_individual_maps] *)

(** [p.exists()]: whether the file system holds something at [p] (a
    directory in the way of a map is a [FileOther] there). *)
Definition path_exists (fs : filesystem) (p : path) : bool :=
  bool_decide (is_Some (files fs !! p)).

(** [path and path.exists()]: the path, when it is given and exists. *)
Definition existing (fs : filesystem) (p : option path) : option path :=
  match p with
  | Some q => if path_exists fs q then Some q else None
  | None => None
  end.

(** [img.size], as (width, height). *)
Definition image_size (img : image) : nat * nat :=
  match img with
  | ImageRGBA a => (length (hd [] a), length a)
  | ImageRGB a => (length (hd [] a), length a)
  | ImageL a => (length (hd [] a), length a)
  end.

(** The grey array of a map: an image of mode L as it is, any other
    through [ImageOps.grayscale], Pillow's conversion to mode L, which is
    a parameter here. *)
Definition grey_array (grayscale : image -> array2 Z) (img : image)
  : array2 Z :=
  match img with
  | ImageL a => a
  | _ => grayscale img
  end.

(** NumPy broadcasting along one axis: a list of the wanted length stays,
    a list of length one is repeated, anything else raises. *)
Definition broadcast_axis {A} (n : nat) (l : list A) : option (list A) :=
  if (length l =? n)%nat then Some l
  else match l with
       | [x] => Some (replicate n x)
       | _ => None
       end.

(** Broadcasting a two-dimensional array to shape (h, w): both axes have
    to fit. *)
Definition broadcast_to (h w : nat) (c : array2 Z) : option (array2 Z) :=
  rows ← mapM (broadcast_axis w) c; broadcast_axis h rows.

(** [mer_array[:, :, k] = c] for an array of shape (h, w, 3). *)
Definition assign_channel (k : nat) (h w : nat) (mer_array : array2 rgb)
    (c : array2 Z) : option (array2 rgb) :=
  c' ← broadcast_to h w c;
  Some (match k with
        | O => set_channel0 mer_array c'
        | S O => set_channel1 mer_array c'
        | _ => set_channel2 mer_array c'
        end).

(** One of the three [if path and path.exists(): ...] blocks. *)
Definition fill_channel (grayscale : image -> array2 Z) (fs : filesystem)
    (k : nat) (p : option path) (h w : nat) (mer_array : array2 rgb)
  : option (array2 rgb) :=
  match existing fs p with
  | Some q =>
      img ← image_open fs q;
      assign_channel k h w mer_array (grey_array grayscale img)
  | None => Some mer_array
  end.

(** The first of the three maps that is given and exists. *)
Definition reference_path (fs : filesystem)
    (metallic_path emissive_path roughness_path : option path) : option path :=
  match existing fs metallic_path with
  | Some q => Some q
  | None =>
      match existing fs emissive_path with
      | Some q => Some q
      | None => existing fs roughness_path
      end
  end.

(** The handler of this function logs and returns [False]; unlike its
    siblings it does not count an error. *)
Definition generate_mer_from_individual_maps (grayscale : image -> array2 Z)
    (metallic_path emissive_path roughness_path output_path : option path)
    (st : state) : bool * state :=
  match reference_path (fs st) metallic_path emissive_path roughness_path with
  | None => (false, st)
  | Some ref =>
      match
        reference_img ← image_open (fs st) ref;
        let '(width, height) := image_size reference_img in
        let mer_array := replicate height (replicate width (RGB 0 0 0)) in
        mer_array ← fill_channel grayscale (fs st) 0 metallic_path
                      height width mer_array;
        mer_array ← fill_channel grayscale (fs st) 1 emissive_path
                      height width mer_array;
        mer_array ← fill_channel grayscale (fs st) 2 roughness_path
                      height width mer_array;
        out ← output_path;
        fs1 ← mkdir_p (path_parent out) (fs st);
        write_file out (FileImage (ImageRGB mer_array)) fs1
      with
      | Some fs2 => (true, State (stats st) fs2)
      | None => (false, st)
      end
  end.

(** [os.path.splitext(name)[1]]: the text from the last dot of the name
    on, when a character other than a dot comes before that dot (leading
    dots belong to the root); empty otherwise. *)
Definition splitext_ext (name : string) : string :=
  match rfind_dot (chars name) 0 None with
  | Some i =>
      if existsb (fun c => negb (Ascii.eqb c "."%char)) (take i (chars name))
      then str (drop i (chars name))
      else ""%string
  | None => ""%string
  end.

(** [img.save(p)] chooses the encoder by [os.path.splitext] of [p] and
    raises [ValueError] for an extension it does not know.  For ".png" it
    writes a PNG file, which keeps the mode and every pixel, so the file
    decodes to the image that was saved.  The batch loop saves to such
    paths only; statements about saving to an arbitrary path are made for
    such paths. *)
Definition saved_as_png (p : path) : Prop :=
  splitext_ext (path_name p) = ".png"%string.

(** ** The metal table of [__init__] *)

(** [self.metal_definitions]: metal ID, name and reference reflectance. *)
#[warnings="-inexact-float"]
Definition metal_definitions : list (Z * (string * list float)) :=
  [(230, ("iron"%string, [0.56; 0.57; 0.58]%float));
   (231, ("gold"%string, [1.00; 0.78; 0.34]%float));
   (232, ("aluminum"%string, [0.91; 0.92; 0.92]%float));
   (233, ("chrome"%string, [0.55; 0.56; 0.56]%float));
   (234, ("copper"%string, [0.95; 0.64; 0.54]%float));
   (235, ("lead"%string, [0.63; 0.63; 0.66]%float));
   (236, ("platinum"%string, [0.67; 0.69; 0.66]%float));
   (237, ("silver"%string, [0.95; 0.93; 0.88]%float))].

(** * Proofs *)

(** ** Arrays *)

Lemma amap_amap {A B C} (f : B -> C) (g : A -> B) (a : array2 A) :
  amap f (amap g a) = amap (fun x => f (g x)) a.
Proof.
  unfold amap. rewrite List.map_map. apply List.map_ext; intros row.
  apply List.map_map.
Qed.

Lemma zip_with_map_same {A B C D} (f : B -> C -> D) (g : A -> B) (h : A -> C)
    (l : list A) :
  zip_with f (List.map g l) (List.map h l) = List.map (fun x => f (g x) (h x)) l.
Proof. induction l as [|x l IH]; simpl; [reflexivity | now rewrite IH]. Qed.

Lemma azip_amap {A B C D} (f : B -> C -> D) (g : A -> B) (h : A -> C)
    (a : array2 A) :
  azip f (amap g a) (amap h a) = amap (fun x => f (g x) (h x)) a.
Proof.
  unfold azip, amap. rewrite zip_with_map_same.
  apply List.map_ext; intros row. apply zip_with_map_same.
Qed.

Lemma amap_ext {A B} (f g : A -> B) (a : array2 A) :
  (forall x, f x = g x) -> amap f a = amap g a.
Proof.
  intros H. unfold amap. apply List.map_ext; intros row.
  now apply List.map_ext.
Qed.

Lemma lookup_map {A B} (f : A -> B) (l : list A) (i : nat) :
  List.map f l !! i = f <$> l !! i.
Proof.
  revert i. induction l as [|x l IH]; intros [|i]; simpl; auto.
Qed.

Lemma pixel_at_amap {A B} (f : A -> B) (a : array2 A) (i j : nat) :
  pixel_at (amap f a) i j = f <$> pixel_at a i j.
Proof.
  unfold pixel_at, amap. rewrite lookup_map.
  destruct (a !! i) as [row|]; simpl; [|reflexivity].
  apply lookup_map.
Qed.

Ltac fuse_arrays := repeat (rewrite amap_amap || rewrite azip_amap).

(** The specular transcoder applies [mer_pixel] to every cell. *)
Lemma specular_to_mer_array_pointwise (a : array2 rgba) :
  specular_to_mer_array a = amap mer_pixel a.
Proof.
  unfold specular_to_mer_array, zeros3, zeros_like, mask_fill, mask_copy,
    set_channel0, set_channel1, set_channel2.
  fuse_arrays. apply amap_ext; intros p.
  unfold mer_pixel, roughness_of, metalness_of, emissive_of.
  cbn [rgb_r rgb_g rgb_b fst snd].
  destruct (green p <? 230) eqn:E1, (metallic_threshold <? green p) eqn:E2,
    (230 <=? green p) eqn:E3, (alpha p <? 255) eqn:E4; simpl; try reflexivity;
    lia.
Qed.

(** The normal transcoder applies [normal_pixel] to every cell. *)
Lemma normal_to_bedrock_array_pointwise (a : array2 rgba) :
  normal_to_bedrock_array a = amap normal_pixel a.
Proof.
  unfold normal_to_bedrock_array, zeros3, set_channel0, set_channel1,
    set_channel2.
  fuse_arrays. apply amap_ext; intros p. reflexivity.
Qed.

(** ** Bytes: exhaustive evaluation *)

Lemma uint8_in_bytes (v : Z) : uint8 v -> In v bytes.
Proof.
  intros [H0 H1]. unfold bytes. apply List.in_map_iff.
  exists (Z.to_nat v). split; [lia|]. apply List.in_seq. lia.
Qed.

Lemma forall_bytes (P : Z -> bool) :
  forallb P bytes = true -> forall v, uint8 v -> P v = true.
Proof.
  intros H v Hv. rewrite forallb_forall in H. apply H, uint8_in_bytes, Hv.
Qed.

Lemma roughness_of_floor (r : Z) : uint8 r -> roughness_of r = roughness_floor r.
Proof.
  intros Hr. apply Z.eqb_eq.
  revert r Hr. apply forall_bytes. vm_compute. reflexivity.
Qed.

Lemma roughness_floor_Qfloor (r : Z) :
  uint8 r -> roughness_floor r = Qfloor (roughness_exact r).
Proof.
  intros Hr. apply Z.eqb_eq.
  revert r Hr. apply forall_bytes. vm_compute. reflexivity.
Qed.

Lemma normal_z_of_floor (x y : Z) :
  uint8 x -> uint8 y -> normal_z_of x y = normal_z_floor x y.
Proof.
  intros Hx Hy. apply Z.eqb_eq.
  revert y Hy. apply forall_bytes.
  revert x Hx. apply (forall_bytes (fun x =>
    forallb (fun y => normal_z_of x y =? normal_z_floor x y) bytes)).
  vm_compute. reflexivity.
Qed.

(** ** The real-number reading of the normal-map closed form *)

Lemma sqrt_IZR_bounds (d : Z) :
  (0 <= d)%Z ->
  (IZR (Z.sqrt d) <= R_sqrt.sqrt (IZR d) < IZR (Z.sqrt d) + 1)%R.
Proof.
  intros Hd. destruct (Z.sqrt_spec d Hd) as [Hlo Hhi].
  pose proof (Z.sqrt_nonneg d) as Hs.
  assert (Hs' : (0 <= IZR (Z.sqrt d))%R) by now apply IZR_le.
  split.
  - rewrite <- (sqrt_square (IZR (Z.sqrt d))) at 1 by exact Hs'.
    apply sqrt_le_1_alt. rewrite <- mult_IZR. now apply IZR_le.
  - replace (IZR (Z.sqrt d) + 1)%R with (IZR (Z.succ (Z.sqrt d)))
      by (rewrite succ_IZR; reflexivity).
    rewrite <- (sqrt_square (IZR (Z.succ (Z.sqrt d))))
      by (apply IZR_le; lia).
    apply sqrt_lt_1_alt. split; [now apply IZR_le|].
    rewrite <- mult_IZR. now apply IZR_lt.
Qed.

Lemma radicand_real (x y : Z) :
  Rmax 0 (1 - (IZR x / 255 * 2 - 1) * (IZR x / 255 * 2 - 1)
            - (IZR y / 255 * 2 - 1) * (IZR y / 255 * 2 - 1))
  = (IZR (radicand x y) / (255 * 255))%R.
Proof.
  unfold radicand.
  set (e := (255 * 255 - (2 * x - 255) * (2 * x - 255)
                       - (2 * y - 255) * (2 * y - 255))%Z).
  assert (He : (1 - (IZR x / 255 * 2 - 1) * (IZR x / 255 * 2 - 1)
                  - (IZR y / 255 * 2 - 1) * (IZR y / 255 * 2 - 1)
                = IZR e / (255 * 255))%R).
  { unfold e. rewrite !minus_IZR, !mult_IZR, !minus_IZR, !mult_IZR. field. }
  rewrite He. destruct (Z_le_gt_dec e 0) as [Hneg|Hpos].
  - rewrite Z.max_l by lia. rewrite Rmax_left.
    + unfold Rdiv. now rewrite Rmult_0_l.
    + apply IZR_le in Hneg. unfold Rdiv.
      assert (0 < / (255 * 255))%R by (apply Rinv_0_lt_compat; lra).
      nra.
  - rewrite Z.max_r by lia. rewrite Rmax_right; [reflexivity|].
    assert (0 < IZR e)%R by (apply IZR_lt; lia).
    assert (0 < / (255 * 255))%R by (apply Rinv_0_lt_compat; lra).
    unfold Rdiv. nra.
Qed.

Lemma normal_z_floor_real (x y : Z) :
  normal_z_floor x y = Int_part (normal_z_exact x y).
Proof.
  unfold normal_z_floor, normal_z_exact. cbv zeta.
  rewrite radicand_real.
  assert (Hd : (0 <= radicand x y)%Z) by (unfold radicand; lia).
  set (d := radicand x y) in *.
  rewrite sqrt_div_alt by lra.
  rewrite sqrt_square by lra.
  destruct (sqrt_IZR_bounds d Hd) as [Hlo Hhi].
  set (s := Z.sqrt d) in *. set (r := R_sqrt.sqrt (IZR d)) in *.
  pose proof (Z.div_mod (255 + s) 2 ltac:(lia)) as Hdm.
  pose proof (Z.mod_pos_bound (255 + s) 2 ltac:(lia)) as Hm.
  set (z := ((255 + s) / 2)%Z) in *.
  assert (H1 : (2 * IZR z <= 255 + IZR s)%R).
  { rewrite <- (mult_IZR 2 z), <- (plus_IZR 255 s). apply IZR_le. lia. }
  assert (H2 : (255 + IZR s <= 2 * IZR z + 1)%R).
  { rewrite <- (mult_IZR 2 z), <- (plus_IZR 255 s), <- (plus_IZR (2 * z) 1).
    apply IZR_le. lia. }
  apply Int_part_spec.
  replace ((r / 255 + 1) / 2 * 255)%R with ((r + 255) / 2)%R by field.
  lra.
Qed.

Lemma array_ok_pixel (a : array2 rgba) (i j : nat) (p : rgba) :
  array_ok a -> pixel_at a i j = Some p -> rgba_ok p.
Proof.
  unfold array_ok, pixel_at. intros Ha H.
  destruct (a !! i) as [row|] eqn:Hrow; [|discriminate].
  rewrite Forall_lookup in Ha. specialize (Ha i row Hrow).
  rewrite Forall_lookup in Ha. exact (Ha j p H).
Qed.

Lemma pixel_at_mer (a : array2 rgba) (i j : nat) (p : rgba) :
  pixel_at a i j = Some p ->
  pixel_at (specular_to_mer_array a) i j = Some (mer_pixel p).
Proof.
  intros H. now rewrite specular_to_mer_array_pointwise, pixel_at_amap, H.
Qed.

Lemma pixel_at_normal (a : array2 rgba) (i j : nat) (p : rgba) :
  pixel_at a i j = Some p ->
  pixel_at (normal_to_bedrock_array a) i j = Some (normal_pixel p).
Proof.
  intros H. now rewrite normal_to_bedrock_array_pointwise, pixel_at_amap, H.
Qed.

Lemma pixel_at_normal_inv (a : array2 rgba) (i j : nat) (q : rgb) :
  pixel_at (normal_to_bedrock_array a) i j = Some q ->
  exists p, pixel_at a i j = Some p /\ q = normal_pixel p.
Proof.
  rewrite normal_to_bedrock_array_pointwise, pixel_at_amap.
  destruct (pixel_at a i j) as [p|]; simpl; [|discriminate].
  intros [= <-]. now exists p.
Qed.

Lemma radicand_range (x y : Z) : 0 <= radicand x y <= 255 * 255.
Proof.
  unfold radicand.
  pose proof (Z.square_nonneg (2 * x - 255)).
  pose proof (Z.square_nonneg (2 * y - 255)).
  lia.
Qed.

Lemma normal_z_floor_range (x y : Z) : 127 <= normal_z_floor x y <= 255.
Proof.
  unfold normal_z_floor. destruct (radicand_range x y) as [Hlo Hhi].
  pose proof (Z.sqrt_nonneg (radicand x y)) as Hs.
  pose proof (Z.sqrt_le_mono _ _ Hhi) as Hm.
  change (Z.sqrt (255 * 255)) with 255 in Hm.
  split.
  - apply Z.div_le_lower_bound; lia.
  - apply Z.div_le_upper_bound; lia.
Qed.

(** ** Claims about the normal-map transcoder *)

(** C1, as stated, fails: for the input cell X=255, Y=128 the output Z
    channel is not 128 (the cast to [uint8] truncates 127.5 to 127). *)
Lemma normal_z_not_rounded :
  ~ (forall q,
       pixel_at (normal_to_bedrock_array [[RGBA 255 128 0 0]]) 0 0 = Some q ->
       rgb_b q = 128).
Proof.
  intros H. specialize (H (RGB 255 128 127) eq_refl). discriminate H.
Qed.

(** C1, amended: for every cell of the input of the normal-map transcoder,
    the output Z (blue) channel is the integer part (floor, not the nearest
    integer) of ((nz + 1)/2) * 255 with nz = sqrt(max(0, 1 - nx^2 - ny^2)),
    nx = (X/255)*2 - 1, ny = (Y/255)*2 - 1; for X=255, Y=128 it is 127. *)
Theorem normal_z_channel_floor (a : array2 rgba) (i j : nat) (p : rgba) :
  uint8 (red p) -> uint8 (green p) ->
  pixel_at a i j = Some p ->
  exists q,
    pixel_at (normal_to_bedrock_array a) i j = Some q /\
    rgb_b q = Int_part (normal_z_exact (red p) (green p)) /\
    (red p = 255 -> green p = 128 -> rgb_b q = 127).
Proof.
  intros Hx Hy Hp. exists (normal_pixel p).
  split; [now apply pixel_at_normal|].
  cbn [normal_pixel rgb_b]. split.
  - rewrite normal_z_of_floor by assumption. apply normal_z_floor_real.
  - intros -> ->. reflexivity.
Qed.

Lemma normal_z_channel_floor_witness :
  exists q,
    pixel_at (normal_to_bedrock_array [[RGBA 255 128 9 9]]) 0 0 = Some q /\
    rgb_b q = Int_part (normal_z_exact 255 128) /\
    (255 = 255 -> 128 = 128 -> rgb_b q = 127).
Proof.
  apply (normal_z_channel_floor [[RGBA 255 128 9 9]] 0 0 (RGBA 255 128 9 9));
    [unfold uint8; simpl; lia | unfold uint8; simpl; lia | reflexivity].
Defined.

(** [convert_normal_map] with its failure points spelled out. *)
Lemma convert_normal_map_unfold (normal_path output_path : path) (st : state) :
  convert_normal_map normal_path output_path st
  = match image_open (fs st) normal_path with
    | Some img =>
        if bool_decide (path_parent output_path ∈ unwritable (fs st))
           || bool_decide (output_path ∈ unwritable (fs st))
        then (false, State (incr_errors (stats st)) (fs st))
        else (true,
              State (incr_normal_converted (stats st))
                    (Filesystem
                       (<[output_path := FileImage
                            (ImageRGB (normal_to_bedrock_array
                                         (convert_RGBA img)))]>
                          (files (fs st)))
                       (unwritable (fs st))))
    | None => (false, State (incr_errors (stats st)) (fs st))
    end.
Proof.
  unfold convert_normal_map, try_except, mkdir_p, write_file.
  destruct (image_open (fs st) normal_path) as [img|]; [|reflexivity].
  cbn [mbind option_bind].
  destruct (bool_decide (path_parent output_path ∈ unwritable (fs st)));
    [reflexivity|].
  cbn [mbind option_bind orb].
  destruct (bool_decide (output_path ∈ unwritable (fs st))); reflexivity.
Qed.

(** The output of the normal-map transcoder is a function of the X and Y
    slices of its input. *)
Lemma normal_array_xy (a1 a2 : array2 rgba) :
  amap (fun p => (red p, green p)) a1 = amap (fun p => (red p, green p)) a2 ->
  normal_to_bedrock_array a1 = normal_to_bedrock_array a2.
Proof.
  intros H. rewrite !normal_to_bedrock_array_pointwise.
  transitivity
    (amap (fun xy : Z * Z => RGB (fst xy) (snd xy) (normal_z_of (fst xy) (snd xy)))
          (amap (fun p => (red p, green p)) a1)).
  - rewrite amap_amap. reflexivity.
  - rewrite H, amap_amap. reflexivity.
Qed.

(** C6: two 4-channel inputs of the normal-map transcoder that agree on the
    X (red) and Y (green) channels of every cell give the same output
    image, whatever their AO (blue) and height (alpha) channels hold: the
    output arrays are equal, and two runs of [convert_normal_map] that
    differ only in which of the two images the input file holds return the
    same result, leave the same counters, and on success the file written
    is the same. *)
Theorem normal_ignores_ao_height (a1 a2 : array2 rgba) :
  amap (fun p => (red p, green p)) a1 = amap (fun p => (red p, green p)) a2 ->
  normal_to_bedrock_array a1 = normal_to_bedrock_array a2 /\
  (forall c m u normal_path output_path,
      let run a :=
        convert_normal_map normal_path output_path
          (State c (Filesystem (<[normal_path := FileImage (ImageRGBA a)]> m) u)) in
      fst (run a1) = fst (run a2) /\
      stats (snd (run a1)) = stats (snd (run a2)) /\
      (fst (run a1) = true ->
       files (fs (snd (run a1))) !! output_path
       = Some (FileImage (ImageRGB (normal_to_bedrock_array a1))) /\
       files (fs (snd (run a2))) !! output_path
       = files (fs (snd (run a1))) !! output_path)).
Proof.
  intros H. pose proof (normal_array_xy a1 a2 H) as Harr.
  split; [exact Harr|].
  intros c m u normal_path output_path run. unfold run.
  rewrite !convert_normal_map_unfold. unfold image_open.
  cbn [fs files unwritable stats]. rewrite !lookup_insert_eq.
  cbn [convert_RGBA].
  destruct (bool_decide (path_parent output_path ∈ u)
            || bool_decide (output_path ∈ u));
    cbn [fst snd stats fs files]; rewrite ?lookup_insert_eq, ?Harr;
    repeat split; discriminate.
Qed.

Lemma normal_ignores_ao_height_witness :
  let a1 := [[RGBA 10 200 0 0; RGBA 128 128 7 255]] in
  let a2 := [[RGBA 10 200 255 31; RGBA 128 128 90 0]] in
  normal_to_bedrock_array a1 = normal_to_bedrock_array a2 /\
  (forall c m u normal_path output_path,
      let run a :=
        convert_normal_map normal_path output_path
          (State c (Filesystem (<[normal_path := FileImage (ImageRGBA a)]> m) u)) in
      fst (run a1) = fst (run a2) /\
      stats (snd (run a1)) = stats (snd (run a2)) /\
      (fst (run a1) = true ->
       files (fs (snd (run a1))) !! output_path
       = Some (FileImage (ImageRGB (normal_to_bedrock_array a1))) /\
       files (fs (snd (run a2))) !! output_path
       = files (fs (snd (run a1))) !! output_path)).
Proof.
  apply (normal_ignores_ao_height
           [[RGBA 10 200 0 0; RGBA 128 128 7 255]]
           [[RGBA 10 200 255 31; RGBA 128 128 90 0]]).
  reflexivity.
Defined.

(** C10: for every input image of the normal-map transcoder, every cell of
    the output has its Z (blue) channel in [127, 255]. *)
Theorem normal_z_hemisphere (a : array2 rgba) (i j : nat) (q : rgb) :
  array_ok a ->
  pixel_at (normal_to_bedrock_array a) i j = Some q ->
  127 <= rgb_b q <= 255.
Proof.
  intros Ha Hq. apply pixel_at_normal_inv in Hq as (p & Hp & ->).
  destruct (array_ok_pixel a i j p Ha Hp) as (Hx & Hy & _).
  cbn [normal_pixel rgb_b]. rewrite normal_z_of_floor by assumption.
  apply normal_z_floor_range.
Qed.

Lemma normal_z_hemisphere_witness :
  127 <= rgb_b (RGB 255 0 127) <= 255.
Proof.
  apply (normal_z_hemisphere [[RGBA 0 0 0 0; RGBA 255 0 3 4]] 0 1).
  - repeat constructor; simpl; lia.
  - reflexivity.
Defined.

(** ** Claims about the Specular -> MER transcoder *)

(** C2, as stated, fails: for smoothness 235 the output roughness is 1,
    while (1 - 235/255)^2 * 255 = 1.568... rounds to 2. *)
Lemma roughness_not_rounded :
  ~ (forall q,
       pixel_at (specular_to_mer_array [[RGBA 235 0 0 0]]) 0 0 = Some q ->
       rgb_b q = roughness_rounded 235).
Proof.
  intros H. specialize (H (RGB 0 0 1) eq_refl). vm_compute in H. discriminate H.
Qed.

(** C2, amended: for every cell of the input of the Specular -> MER
    transcoder with smoothness R, the output roughness (blue) channel is
    the integer part (floor, not the nearest integer) of
    (1 - R/255)^2 * 255, which lies in [0,255]; smoothness 255 gives
    roughness 0 and smoothness 0 gives roughness 255. *)
Theorem roughness_channel_floor (a : array2 rgba) (i j : nat) (p : rgba) :
  uint8 (red p) ->
  pixel_at a i j = Some p ->
  exists q,
    pixel_at (specular_to_mer_array a) i j = Some q /\
    rgb_b q = Qfloor (roughness_exact (red p)) /\
    0 <= rgb_b q <= 255 /\
    (red p = 255 -> rgb_b q = 0) /\
    (red p = 0 -> rgb_b q = 255).
Proof.
  intros Hr Hp. exists (mer_pixel p).
  split; [now apply pixel_at_mer|].
  cbn [mer_pixel rgb_b]. rewrite roughness_of_floor by assumption.
  split; [now apply roughness_floor_Qfloor|].
  unfold roughness_floor. split; [|split].
  - destruct Hr as [H0 H1]. split.
    + apply Z.div_pos; nia.
    + apply Z.div_le_upper_bound; nia.
  - intros ->. reflexivity.
  - intros ->. reflexivity.
Qed.

Lemma roughness_channel_floor_witness :
  exists q,
    pixel_at (specular_to_mer_array [[RGBA 235 0 0 0]]) 0 0 = Some q /\
    rgb_b q = Qfloor (roughness_exact 235) /\
    0 <= rgb_b q <= 255 /\
    (235 = 255 -> rgb_b q = 0) /\
    (235 = 0 -> rgb_b q = 255).
Proof.
  apply (roughness_channel_floor [[RGBA 235 0 0 0]] 0 0 (RGBA 235 0 0 0));
    [unfold uint8; simpl; lia | reflexivity].
Defined.

(** C4: for every cell of the input of the Specular -> MER transcoder with
    reflectance G, the output metalness (red) channel is 255 when
    G >= 230, G when 10 < G < 230, and 0 when G <= 10. *)
Theorem metalness_channel (a : array2 rgba) (i j : nat) (p : rgba) :
  pixel_at a i j = Some p ->
  exists q,
    pixel_at (specular_to_mer_array a) i j = Some q /\
    (230 <= green p -> rgb_r q = 255) /\
    (10 < green p < 230 -> rgb_r q = green p) /\
    (green p <= 10 -> rgb_r q = 0).
Proof.
  intros Hp. exists (mer_pixel p).
  split; [now apply pixel_at_mer|].
  cbn [mer_pixel rgb_r]. unfold metalness_of, metallic_threshold.
  destruct (green p <? 230) eqn:E1, (10 <? green p) eqn:E2,
    (230 <=? green p) eqn:E3; simpl; repeat split; intros; lia.
Qed.

Lemma metalness_channel_witness :
  exists q,
    pixel_at (specular_to_mer_array [[RGBA 0 231 0 0; RGBA 0 57 0 0]]) 0 1
      = Some q /\
    (230 <= 57 -> rgb_r q = 255) /\
    (10 < 57 < 230 -> rgb_r q = 57) /\
    (57 <= 10 -> rgb_r q = 0).
Proof.
  apply (metalness_channel [[RGBA 0 231 0 0; RGBA 0 57 0 0]] 0 1
                           (RGBA 0 57 0 0)).
  reflexivity.
Defined.

(** C5: for every cell of the input of the Specular -> MER transcoder with
    alpha (emission) A, the output emissive (green) channel is A when
    A < 255 and 0 when A = 255. *)
Theorem emissive_channel (a : array2 rgba) (i j : nat) (p : rgba) :
  pixel_at a i j = Some p ->
  exists q,
    pixel_at (specular_to_mer_array a) i j = Some q /\
    (alpha p < 255 -> rgb_g q = alpha p) /\
    (alpha p = 255 -> rgb_g q = 0).
Proof.
  intros Hp. exists (mer_pixel p).
  split; [now apply pixel_at_mer|].
  cbn [mer_pixel rgb_g]. unfold emissive_of.
  destruct (alpha p <? 255) eqn:E; split; intros; lia.
Qed.

Lemma emissive_channel_witness :
  exists q,
    pixel_at (specular_to_mer_array [[RGBA 0 0 0 200]]) 0 0 = Some q /\
    (200 < 255 -> rgb_g q = 200) /\
    (200 = 255 -> rgb_g q = 0).
Proof.
  apply (emissive_channel [[RGBA 0 0 0 200]] 0 0 (RGBA 0 0 0 200)).
  reflexivity.
Defined.

(** ** Counters *)

Lemma try_except_cases (body : state -> option state) (st : state) :
  (exists st', body st = Some st' /\ try_except body st = (true, st')) \/
  (body st = None /\
   try_except body st = (false, State (incr_errors (stats st)) (fs st))).
Proof.
  unfold try_except. destruct (body st) as [st'|]; [left; eauto | right; auto].
Qed.

Lemma convert_specular_to_mer_cases (specular_path mer_path : path) (st : state) :
  (exists fs',
     convert_specular_to_mer specular_path mer_path st
     = (true, State (incr_mer_generated (incr_specular_converted (stats st))) fs'))
  \/ convert_specular_to_mer specular_path mer_path st
     = (false, State (incr_errors (stats st)) (fs st)).
Proof.
  unfold convert_specular_to_mer, try_except.
  destruct (image_open (fs st) specular_path) as [img|]; simpl; [|now right].
  destruct (mkdir_p _ (fs st)) as [fs1|]; simpl; [|now right].
  destruct (write_file _ _ fs1) as [fs2|]; simpl; [|now right].
  left. now exists fs2.
Qed.

Lemma convert_normal_map_cases (normal_path output_path : path) (st : state) :
  (exists fs',
     convert_normal_map normal_path output_path st
     = (true, State (incr_normal_converted (stats st)) fs'))
  \/ convert_normal_map normal_path output_path st
     = (false, State (incr_errors (stats st)) (fs st)).
Proof.
  unfold convert_normal_map, try_except.
  destruct (image_open (fs st) normal_path) as [img|]; simpl; [|now right].
  destruct (mkdir_p _ (fs st)) as [fs1|]; simpl; [|now right].
  destruct (write_file _ _ fs1) as [fs2|]; simpl; [|now right].
  left. now exists fs2.
Qed.

(** C9: a call of [convert_specular_to_mer] returns [True] with
    [specular_converted] and [mer_generated] each one higher and the other
    three counters unchanged, or returns [False] with [errors] one higher
    and the other four unchanged; [convert_normal_map] likewise, with
    [normal_converted] alone one higher on success. *)
Theorem transcoder_counter_frame (src dst : path) (st : state) :
  let c := stats st in
  (let '(ok, st') := convert_specular_to_mer src dst st in
   (ok = true /\
    stats st' = Stats (specular_converted c + 1) (normal_converted c)
                      (mer_generated c + 1) (texture_sets_created c) (errors c))
   \/
   (ok = false /\
    stats st' = Stats (specular_converted c) (normal_converted c)
                      (mer_generated c) (texture_sets_created c) (errors c + 1)))
  /\
  (let '(ok, st') := convert_normal_map src dst st in
   (ok = true /\
    stats st' = Stats (specular_converted c) (normal_converted c + 1)
                      (mer_generated c) (texture_sets_created c) (errors c))
   \/
   (ok = false /\
    stats st' = Stats (specular_converted c) (normal_converted c)
                      (mer_generated c) (texture_sets_created c) (errors c + 1))).
Proof.
  intros c. split.
  - destruct (convert_specular_to_mer_cases src dst st) as [[fs' ->] | ->];
      [left | right]; split; reflexivity.
  - destruct (convert_normal_map_cases src dst st) as [[fs' ->] | ->];
      [left | right]; split; reflexivity.
Qed.

(** ** The texture-set descriptor *)

Lemma texture_set_json_members (b : string) (has_mer has_normal : bool) :
  let texture_set := texture_set_json b has_mer has_normal in
  let inner := json_member "minecraft:texture_set" texture_set in
  json_member "format_version" texture_set = Some (JString "1.16.100") /\
  inner ≫= json_member "color" = Some (JString b) /\
  inner ≫= json_member "metalness_emissive_roughness"
    = (if has_mer then Some (JString (b +:+ "_mer")) else None) /\
  inner ≫= json_member "normal"
    = (if has_normal then Some (JString (b +:+ "_normal")) else None).
Proof. destruct has_mer, has_normal; repeat split; reflexivity. Qed.

Lemma create_texture_set_json_writes (b : string) (output_dir : path)
    (has_mer has_normal : bool) (st : state) :
  let json_path := texture_set_json_path b output_dir in
  json_path ∉ unwritable (fs st) ->
  path_parent json_path ∉ unwritable (fs st) ->
  (path_name output_dir <> "blocks"%string ->
   path_join (path_parent (path_parent output_dir)) "blocks"
     ∉ unwritable (fs st)) ->
  create_texture_set_json b output_dir has_mer has_normal st
  = (true,
     State (incr_texture_sets_created (stats st))
           (Filesystem
              (<[json_path := FileJson (texture_set_json b has_mer has_normal)]>
                 (files (fs st)))
              (unwritable (fs st)))).
Proof.
  intros json_path Hfile Hdir Hblocks.
  unfold create_texture_set_json, try_except. fold json_path.
  destruct (String.eqb_spec (path_name output_dir) "blocks") as [Heq|Hne];
    simpl.
  - unfold mkdir_p, write_file.
    rewrite (bool_decide_eq_false_2 _ Hdir). simpl.
    rewrite (bool_decide_eq_false_2 _ Hfile). reflexivity.
  - unfold mkdir_p, write_file.
    rewrite (bool_decide_eq_false_2 _ (Hblocks Hne)). simpl.
    rewrite (bool_decide_eq_false_2 _ Hdir). simpl.
    rewrite (bool_decide_eq_false_2 _ Hfile). reflexivity.
Qed.

Lemma convert_specular_to_mer_undecodable (specular_path mer_path : path)
    (st : state) :
  image_open (fs st) specular_path = None ->
  convert_specular_to_mer specular_path mer_path st
  = (false, State (incr_errors (stats st)) (fs st)).
Proof.
  intros H. unfold convert_specular_to_mer, try_except. now rewrite H.
Qed.

Lemma convert_normal_map_undecodable (normal_path output_path : path)
    (st : state) :
  image_open (fs st) normal_path = None ->
  convert_normal_map normal_path output_path st
  = (false, State (incr_errors (stats st)) (fs st)).
Proof.
  intros H. unfold convert_normal_map, try_except. now rewrite H.
Qed.

(** Without a successful transcoding the loop body never reaches the
    emitter. *)
Lemma process_set_no_descriptor (bedrock_textures_dir : path)
    (texture_mappings : option (gmap string string)) (st : state)
    (item : string * dict path) :
  (forall p, dict_get "specular" (snd item) = Some p ->
             image_open (fs st) p = None) ->
  (forall p, dict_get "normal" (snd item) = Some p ->
             image_open (fs st) p = None) ->
  fs (process_set bedrock_textures_dir texture_mappings st item) = fs st /\
  texture_sets_created
    (stats (process_set bedrock_textures_dir texture_mappings st item))
  = texture_sets_created (stats st).
Proof.
  destruct item as [set_name components]. simpl. intros Hs Hn.
  unfold process_set.
  destruct (dict_get "specular" components) as [sp|];
    destruct (dict_get "normal" components) as [np|];
    rewrite ?(convert_specular_to_mer_undecodable sp _ st (Hs sp eq_refl));
    rewrite ?convert_normal_map_undecodable by (apply Hn; reflexivity);
    simpl; auto.
Qed.

(** The loop body is the two transcoder calls followed by the guarded
    emitter. *)
Lemma process_set_emit (bedrock_textures_dir : path)
    (texture_mappings : option (gmap string string)) (st : state)
    (item : string * dict path) :
  process_set bedrock_textures_dir texture_mappings st item
  = let '(has_mer, has_normal, st2) :=
      transcode_set bedrock_textures_dir texture_mappings st item in
    emit_texture_set (bedrock_base_name_of texture_mappings (fst item))
      (path_join bedrock_textures_dir "blocks") has_mer has_normal st2.
Proof.
  destruct item as [set_name components].
  unfold process_set, transcode_set, emit_texture_set. cbn [fst].
  destruct (dict_get "specular" components) as [sp|];
    [destruct (convert_specular_to_mer sp _ st) as [hm st1]|];
    (destruct (dict_get "normal" components) as [np|];
     [match goal with
      | |- context [convert_normal_map np ?d ?s] =>
          destruct (convert_normal_map np d s) as [hn st2]
      end|]);
    reflexivity.
Qed.

(** When neither transcoder call returns [True], whatever made them fail,
    the files are as they were. *)
Lemma transcode_set_failed (bedrock_textures_dir : path)
    (texture_mappings : option (gmap string string)) (st : state)
    (item : string * dict path) :
  let r := transcode_set bedrock_textures_dir texture_mappings st item in
  fst (fst r) = false -> snd (fst r) = false -> fs (snd r) = fs st.
Proof.
  destruct item as [set_name components]. unfold transcode_set.
  destruct (dict_get "specular" components) as [sp|];
    [destruct (convert_specular_to_mer_cases sp
                 (path_join (path_join bedrock_textures_dir "blocks")
                    (bedrock_base_name_of texture_mappings set_name
                     +:+ "_mer.png")) st) as [[fs1 ->] | ->]|];
    (destruct (dict_get "normal" components) as [np|];
     [match goal with
      | |- context [convert_normal_map np ?d ?s] =>
          destruct (convert_normal_map_cases np d s) as [[fs2 ->] | ->]
      end|]);
    cbn [fst snd fs]; intros; try discriminate; reflexivity.
Qed.

(** C3: the texture-set descriptor emitter, as the program calls it (the
    guard of the loop body followed by [create_texture_set_json]), with
    base name b and flags has_mer, has_normal, writes no descriptor and
    changes nothing when both flags are false; otherwise, when the file can
    be written, it writes one descriptor, whose record holds
    format_version "1.16.100", color = b, the key
    metalness_emissive_roughness = b+"_mer" if and only if has_mer, and the
    key normal = b+"_normal" if and only if has_normal.  In the loop the
    flags are the results of the two transcoder calls, so a set that
    produces neither map, whatever the cause, yields no descriptor file
    and leaves the files as they were. *)
Theorem descriptor_conditionality (b : string) (blocks_dir : path)
    (has_mer has_normal : bool) (st : state) :
  let json_path := texture_set_json_path b blocks_dir in
  let texture_set := texture_set_json b has_mer has_normal in
  let inner := json_member "minecraft:texture_set" texture_set in
  let st' := emit_texture_set b blocks_dir has_mer has_normal st in
  (has_mer = false /\ has_normal = false -> st' = st)
  /\ (has_mer = true \/ has_normal = true ->
      json_path ∉ unwritable (fs st) ->
      path_parent json_path ∉ unwritable (fs st) ->
      (path_name blocks_dir <> "blocks"%string ->
       path_join (path_parent (path_parent blocks_dir)) "blocks"
         ∉ unwritable (fs st)) ->
      st' = State (incr_texture_sets_created (stats st))
                  (Filesystem
                     (<[json_path := FileJson texture_set]> (files (fs st)))
                     (unwritable (fs st))))
  /\ json_member "format_version" texture_set = Some (JString "1.16.100")
  /\ inner ≫= json_member "color" = Some (JString b)
  /\ inner ≫= json_member "metalness_emissive_roughness"
     = (if has_mer then Some (JString (b +:+ "_mer")) else None)
  /\ inner ≫= json_member "normal"
     = (if has_normal then Some (JString (b +:+ "_normal")) else None)
  /\ (forall bedrock_textures_dir texture_mappings st0 item,
        let '(hm, hn, st2) :=
          transcode_set bedrock_textures_dir texture_mappings st0 item in
        process_set bedrock_textures_dir texture_mappings st0 item
        = emit_texture_set (bedrock_base_name_of texture_mappings (fst item))
            (path_join bedrock_textures_dir "blocks") hm hn st2 /\
        (hm = false -> hn = false ->
         process_set bedrock_textures_dir texture_mappings st0 item = st2 /\
         fs st2 = fs st0)).
Proof.
  intros json_path texture_set inner st'.
  split; [|split].
  - intros [-> ->]. reflexivity.
  - intros Hflag Hfile Hdir Hblocks. unfold st', emit_texture_set.
    assert (Hor : has_mer || has_normal = true).
    { destruct Hflag as [-> | ->]; [reflexivity | apply orb_true_r]. }
    rewrite Hor, create_texture_set_json_writes by assumption. reflexivity.
  - destruct (texture_set_json_members b has_mer has_normal)
      as (H1 & H2 & H3 & H4).
    repeat (split; [assumption|]).
    intros d m st0 item.
    pose proof (process_set_emit d m st0 item) as Hemit.
    pose proof (transcode_set_failed d m st0 item) as Hfail.
    destruct (transcode_set d m st0 item) as [[hm hn] st2].
    cbn [fst snd] in Hfail. split; [exact Hemit|].
    intros -> ->. split; [exact Hemit | now apply Hfail].
Qed.

Lemma descriptor_conditionality_witness :
  let st := State reset_stats (Filesystem ∅ ∅) in
  let blocks_dir := ["out"; "textures"; "blocks"]%string in
  emit_texture_set "stone" blocks_dir false false st = st /\
  emit_texture_set "stone" blocks_dir true false st
  = State (incr_texture_sets_created (stats st))
          (Filesystem
             (<[ ["out"; "textures"; "blocks"; "stone.texture_set.json"]%string
                 := FileJson (texture_set_json "stone" true false) ]>
                (files (fs st)))
             (unwritable (fs st))).
Proof.
  split.
  - destruct (descriptor_conditionality "stone"
                ["out"; "textures"; "blocks"]%string false false
                (State reset_stats (Filesystem ∅ ∅))) as (H & _).
    apply H. split; reflexivity.
  - destruct (descriptor_conditionality "stone"
                ["out"; "textures"; "blocks"]%string true false
                (State reset_stats (Filesystem ∅ ∅))) as (_ & H & _).
    apply H.
    + now left.
    + apply not_elem_of_empty.
    + apply not_elem_of_empty.
    + intros _. apply not_elem_of_empty.
Defined.

(** ** The batch loop *)






Lemma image_open_insert_ne (p q : path) (c : file) (m : gmap path file)
    (u : gset path) :
  p <> q ->
  image_open (Filesystem (<[p := c]> m) u) q = image_open (Filesystem m u) q.
Proof.
  intros Hne. unfold image_open. cbn [files].
  now rewrite lookup_insert_ne.
Qed.







(** ** Strings *)

Lemma str_chars (s : string) : str (chars s) = s.
Proof. apply string_of_list_ascii_of_string. Qed.

Lemma chars_str (l : list ascii) : chars (str l) = l.
Proof. apply list_ascii_of_string_of_list_ascii. Qed.

Lemma chars_inj (s t : string) : chars s = chars t -> s = t.
Proof. intros H. rewrite <- (str_chars s), <- (str_chars t). now rewrite H. Qed.

Lemma chars_app (s t : string) : chars (s +:+ t) = chars s ++ chars t.
Proof.
  unfold chars. induction s as [|c s IH]; [reflexivity|].
  simpl. f_equal. exact IH.
Qed.

Lemma endswith_iff (s suffix : string) :
  endswith s suffix = true <-> exists pre, s = pre +:+ suffix.
Proof.
  unfold endswith. rewrite bool_decide_eq_true. split.
  - intros [k Hk]. exists (str k). apply chars_inj.
    now rewrite chars_app, chars_str.
  - intros [pre ->]. exists (chars pre). apply chars_app.
Qed.

Lemma drop_last_app (pre suffix : string) :
  drop_last (length (chars suffix)) (pre +:+ suffix) = pre.
Proof.
  unfold drop_last. rewrite chars_app, length_app.
  replace (length (chars pre) + length (chars suffix) - length (chars suffix))%nat
    with (length (chars pre)) by lia.
  rewrite take_app_length. apply str_chars.
Qed.

Lemma append_inj_l (pre pre' suffix : string) :
  pre +:+ suffix = pre' +:+ suffix -> pre = pre'.
Proof.
  intros H. apply chars_inj. apply (f_equal chars) in H.
  rewrite !chars_app in H. now apply app_inv_tail in H.
Qed.

Lemma endswith_last (s suffix : string) :
  endswith s suffix = true ->
  chars suffix <> [] ->
  last (chars s) = last (chars suffix).
Proof.
  intros [pre ->]%endswith_iff Hne. rewrite chars_app, last_app.
  destruct (last (chars suffix)) eqn:E; [reflexivity|].
  apply last_None in E. contradiction.
Qed.

(** Two suffixes with different last characters exclude each other. *)
Lemma endswith_exclusive (s suffix1 suffix2 : string) :
  chars suffix1 <> [] -> chars suffix2 <> [] ->
  last (chars suffix1) <> last (chars suffix2) ->
  endswith s suffix1 = true -> endswith s suffix2 = false.
Proof.
  intros H1 H2 Hne E1. destruct (endswith s suffix2) eqn:E2; [|reflexivity].
  apply endswith_last in E1; [|assumption].
  apply endswith_last in E2; [|assumption]. congruence.
Qed.

(** ** Dictionaries *)

Section DictFacts.
Context {V : Type}.
Implicit Types (d : dict V) (k : string) (v : V).

Lemma dict_get_set k' k v d :
  dict_get k' (dict_set k v d)
  = if String.eqb k' k then Some v else dict_get k' d.
Proof.
  induction d as [|[k0 v0] d IH]; cbn.
  - destruct (String.eqb_spec k' k); reflexivity.
  - destruct (String.eqb_spec k k0) as [->|Hne]; cbn.
    + destruct (String.eqb_spec k' k0); reflexivity.
    + destruct (String.eqb_spec k' k0) as [->|Hne'].
      * destruct (String.eqb_spec k0 k); [congruence | reflexivity].
      * exact IH.
Qed.

Lemma dict_get_alter (f : V -> V) k' k d :
  dict_get k' (dict_alter f k d)
  = if String.eqb k' k then f <$> dict_get k d else dict_get k' d.
Proof.
  induction d as [|[k0 v0] d IH]; cbn.
  - destruct (String.eqb k' k); reflexivity.
  - destruct (String.eqb_spec k k0) as [->|Hne]; cbn.
    + destruct (String.eqb_spec k' k0); reflexivity.
    + destruct (String.eqb_spec k' k0) as [->|Hne'].
      * destruct (String.eqb_spec k0 k); [congruence | reflexivity].
      * exact IH.
Qed.

Lemma dict_get_None_keys k d : dict_get k d = None <-> k ∉ dict_keys d.
Proof.
  induction d as [|[k0 v0] d IH]; cbn.
  - split; [intros _; apply not_elem_of_nil | reflexivity].
  - rewrite not_elem_of_cons.
    destruct (String.eqb_spec k k0) as [->|Hne]; split.
    + discriminate.
    + intros [H _]. congruence.
    + intros H. split; [assumption | now apply IH].
    + intros [_ H]. now apply IH.
Qed.

Lemma dict_keys_set k v d :
  dict_keys (dict_set k v d)
  = if dict_mem k d then dict_keys d else dict_keys d ++ [k].
Proof.
  unfold dict_mem, dict_keys.
  induction d as [|[k0 v0] d IH]; cbn; [reflexivity|].
  destruct (String.eqb_spec k k0) as [->|Hne]; cbn; [reflexivity|].
  rewrite IH. destruct (dict_get k d); reflexivity.
Qed.

Lemma dict_keys_alter (f : V -> V) k d :
  dict_keys (dict_alter f k d) = dict_keys d.
Proof.
  unfold dict_keys. induction d as [|[k0 v0] d IH]; cbn; [reflexivity|].
  destruct (String.eqb k k0); cbn; [reflexivity | now rewrite IH].
Qed.

Lemma dict_keys_set_NoDup k v d :
  NoDup (dict_keys d) -> NoDup (dict_keys (dict_set k v d)).
Proof.
  intros H. rewrite dict_keys_set. unfold dict_mem.
  destruct (dict_get k d) eqn:E; [assumption|].
  apply NoDup_app. split; [assumption|]. split.
  - intros x Hx ->%list_elem_of_singleton.
    now apply dict_get_None_keys in E.
  - apply NoDup_singleton.
Qed.

Lemma dict_get_filter (P : V -> bool) k d :
  NoDup (dict_keys d) ->
  dict_get k (List.filter (fun kv => P (snd kv)) d)
  = match dict_get k d with
    | Some v => if P v then Some v else None
    | None => None
    end.
Proof.
  induction d as [|[k0 v0] d IH]; cbn; [reflexivity|].
  intros [Hk0 Hd]%NoDup_cons. specialize (IH Hd).
  destruct (String.eqb_spec k k0) as [->|Hne].
  - destruct (P v0); cbn.
    + now rewrite String.eqb_refl.
    + rewrite IH. apply dict_get_None_keys in Hk0. now rewrite Hk0.
  - destruct (P v0); cbn; [|exact IH].
    destruct (String.eqb_spec k k0); [congruence | exact IH].
Qed.

Lemma dict_keys_filter_NoDup (P : string * V -> bool) d :
  NoDup (dict_keys d) -> NoDup (dict_keys (List.filter P d)).
Proof.
  induction d as [|kv d IH]; cbn; [auto|].
  intros [Hk Hd]%NoDup_cons. destruct (P kv); cbn; [|auto].
  apply NoDup_cons. split; [|auto].
  intros Hin. apply Hk. unfold dict_keys in *.
  apply list_elem_of_In, List.in_map_iff in Hin as (x & Hx & Hf).
  apply List.filter_In in Hf as [Hf _].
  apply list_elem_of_In, List.in_map_iff. eauto.
Qed.

End DictFacts.

(** ** Texture-set discovery *)

Lemma endswith_app (b suffix : string) : endswith (b +:+ suffix) suffix = true.
Proof. apply endswith_iff. now exists b. Qed.

Lemma excluded_not_endswith (name suffix : string) :
  existsb (endswith name) excluded_suffixes = false ->
  suffix ∈ excluded_suffixes ->
  endswith name suffix = false.
Proof.
  intros H Hin. destruct (endswith name suffix) eqn:E; [|reflexivity].
  rewrite <- H. symmetry. apply List.existsb_exists.
  exists suffix. split; [now apply list_elem_of_In | assumption].
Qed.

Lemma classified_as_functional (f : path) (b r b' r' : string) :
  classified_as f b r -> classified_as f b' r' -> b = b' /\ r = r'.
Proof.
  assert (Hsn : forall x y : string, x +:+ "_s" <> y +:+ "_n").
  { intros x y H.
    pose proof (endswith_app x "_s") as E. rewrite H in E.
    pose proof (endswith_exclusive (y +:+ "_n") "_s" "_n"
                  ltac:(vm_compute; discriminate)
                  ltac:(vm_compute; discriminate)
                  ltac:(vm_compute; discriminate) E) as E'.
    rewrite endswith_app in E'. discriminate E'. }
  assert (Hex : forall (x : string) suffix,
             suffix ∈ excluded_suffixes ->
             existsb (endswith (x +:+ suffix)) excluded_suffixes = false ->
             False).
  { intros x suffix Hin H.
    apply (excluded_not_endswith _ suffix) in H; [|assumption].
    now rewrite endswith_app in H. }
  unfold classified_as.
  intros [[-> H1]|[[-> H1]|(-> & H1 & H1')]] [[-> H2]|[[-> H2]|(-> & H2 & H2')]];
    rewrite H1 in H2.
  - split; [now apply append_inj_l in H2 | reflexivity].
  - now apply Hsn in H2.
  - rewrite <- H2 in H2'. exfalso. apply (Hex b "_s"%string); [apply list_elem_of_here | exact H2'].
  - symmetry in H2. now apply Hsn in H2.
  - split; [now apply append_inj_l in H2 | reflexivity].
  - rewrite <- H2 in H2'. exfalso. apply (Hex b "_n"%string);
    [apply list_elem_of_further, list_elem_of_here | exact H2'].
  - rewrite H2 in H1'. exfalso. apply (Hex b' "_s"%string); [apply list_elem_of_here | exact H1'].
  - rewrite H2 in H1'. exfalso. apply (Hex b' "_n"%string);
    [apply list_elem_of_further, list_elem_of_here | exact H1'].
  - auto.
Qed.

(** One iteration either files the texture under its classification or
    leaves the dictionary alone. *)
Lemma detect_step_cases (pbr_sets : dict (dict path)) (f : path) :
  (exists base role,
      classified_as f base role /\
      detect_step pbr_sets f = add_component base role f pbr_sets)
  \/ ((forall base role, ~ classified_as f base role) /\
      detect_step pbr_sets f = pbr_sets).
Proof.
  unfold detect_step, classified_as.
  destruct (endswith (path_stem f) "_s") eqn:Es.
  { left. exists (drop_last 2 (path_stem f)), "specular"%string.
    split; [|reflexivity]. left. split; [reflexivity|].
    apply endswith_iff in Es as [pre Hpre]. rewrite Hpre.
    now rewrite (drop_last_app pre "_s" : drop_last 2 (pre +:+ "_s") = pre). }
  destruct (endswith (path_stem f) "_n") eqn:En.
  { left. exists (drop_last 2 (path_stem f)), "normal"%string.
    split; [|reflexivity]. right. left. split; [reflexivity|].
    apply endswith_iff in En as [pre Hpre]. rewrite Hpre.
    now rewrite (drop_last_app pre "_n" : drop_last 2 (pre +:+ "_n") = pre). }
  destruct (existsb (endswith (path_stem f)) excluded_suffixes) eqn:Ex; cbn [negb].
  - right. split; [|reflexivity].
    intros base role [[_ H]|[[_ H]|(_ & H & H')]].
    + rewrite H, endswith_app in Es. discriminate.
    + rewrite H, endswith_app in En. discriminate.
    + rewrite H, H' in Ex. discriminate.
  - left. exists (path_stem f), "diffuse"%string.
    split; [|reflexivity]. right. right. auto.
Qed.

Lemma lookup_component_add (base role : string) (f : path)
    (pbr_sets : dict (dict path)) (base' role' : string) :
  lookup_component (add_component base role f pbr_sets) base' role'
  = if String.eqb base' base && String.eqb role' role then Some f
    else lookup_component pbr_sets base' role'.
Proof.
  unfold lookup_component, add_component, dict_mem.
  destruct (dict_get base pbr_sets) as [comps|] eqn:E;
    rewrite dict_get_alter; rewrite ?dict_get_set;
    destruct (String.eqb_spec base' base) as [->|Hne]; cbn [andb];
    rewrite ?String.eqb_refl, ?E; cbn; rewrite ?dict_get_set;
    try reflexivity;
    destruct (String.eqb role' role); reflexivity.
Qed.

Lemma add_component_NoDup (base role : string) (f : path)
    (pbr_sets : dict (dict path)) :
  NoDup (dict_keys pbr_sets) ->
  NoDup (dict_keys (add_component base role f pbr_sets)).
Proof.
  intros H. unfold add_component. rewrite dict_keys_alter.
  destruct (dict_mem base pbr_sets); [assumption|].
  now apply dict_keys_set_NoDup.
Qed.

Lemma detect_step_invariant (pbr_sets : dict (dict path)) (seen : list path)
    (f : path) :
  discovered pbr_sets seen ->
  discovered (detect_step pbr_sets f) (seen ++ [f]).
Proof.
  intros (Hnd & Hsound & Hcomplete).
  destruct (detect_step_cases pbr_sets f)
    as [(b & r & Hc & ->) | (Hnone & ->)].
  - split; [now apply add_component_NoDup|]. split.
    + intros base role g. rewrite lookup_component_add.
      destruct (String.eqb_spec base b) as [->|Hb];
        [destruct (String.eqb_spec role r) as [->|Hr]|]; cbn [andb].
      * intros [= <-]. split; [|assumption].
        apply elem_of_app. right. apply list_elem_of_singleton. reflexivity.
      * intros Hl; destruct (Hsound _ _ _ Hl) as [Hg Hg'].
        split; [apply elem_of_app; now left | assumption].
      * intros Hl; destruct (Hsound _ _ _ Hl) as [Hg Hg'].
        split; [apply elem_of_app; now left | assumption].
    + intros base role g Hg Hclass. rewrite lookup_component_add.
      destruct (String.eqb_spec base b) as [->|Hb];
        [destruct (String.eqb_spec role r) as [->|Hr]|]; cbn [andb];
        [now eexists| |];
        (apply elem_of_app in Hg as [Hg| ->%list_elem_of_singleton];
         [now apply (Hcomplete _ _ g)
         |destruct (classified_as_functional _ _ _ _ _ Hc Hclass); congruence]).
  - split; [assumption|]. split.
    + intros base role g Hl; destruct (Hsound _ _ _ Hl) as [Hg Hg'].
        split; [apply elem_of_app; now left | assumption].
    + intros base role g Hg Hclass.
      apply elem_of_app in Hg as [Hg| ->%list_elem_of_singleton].
      * now apply (Hcomplete _ _ g).
      * now apply Hnone in Hclass.
Qed.

Lemma detect_fold_invariant (l : list path) :
  forall pbr_sets seen,
    discovered pbr_sets seen ->
    discovered (fold_left detect_step l pbr_sets) (seen ++ l).
Proof.
  induction l as [|f l IH]; intros pbr_sets seen H; cbn [fold_left].
  - now rewrite app_nil_r.
  - replace (seen ++ f :: l) with ((seen ++ [f]) ++ l)
      by now rewrite <- app_assoc.
    apply IH. now apply detect_step_invariant.
Qed.

Lemma discovered_all (tree : list path) :
  discovered (fold_left detect_step (texture_files tree) []) (texture_files tree).
Proof.
  apply (detect_fold_invariant _ [] []). split; [constructor|].
  split; [intros base role g H; discriminate H|].
  intros base role g H. now apply elem_of_nil in H.
Qed.

Lemma classified_specular (f : path) (base : string) :
  classified_as f base "specular" <-> path_stem f = base +:+ "_s".
Proof.
  unfold classified_as. split.
  - intros [[_ H]|[[H _]|[H _]]]; [assumption | discriminate H | discriminate H].
  - intros H. left. auto.
Qed.

Lemma classified_normal (f : path) (base : string) :
  classified_as f base "normal" <-> path_stem f = base +:+ "_n".
Proof.
  unfold classified_as. split.
  - intros [[H _]|[[_ H]|[H _]]]; [discriminate H | assumption | discriminate H].
  - intros H. right. left. auto.
Qed.

Lemma ignored_stem_unclassified (f : path) (suffix : string) :
  suffix ∈ ignored_suffixes ->
  endswith (path_stem f) suffix = true ->
  forall base role, ~ classified_as f base role.
Proof.
  intros Hin Hend base role Hc.
  assert (Hex : existsb (endswith (path_stem f)) excluded_suffixes = true).
  { apply List.existsb_exists. exists suffix. split; [|assumption].
    apply list_elem_of_In. unfold ignored_suffixes in Hin.
    unfold excluded_suffixes. do 2 apply list_elem_of_further. exact Hin. }
  assert (Hs : endswith (path_stem f) "_s" = false /\
               endswith (path_stem f) "_n" = false).
  { unfold ignored_suffixes in Hin.
    repeat (apply elem_of_cons in Hin as [->|Hin]);
      try (now apply elem_of_nil in Hin);
      match type of Hend with
      | endswith _ ?sfx = true =>
          split;
          [apply (endswith_exclusive _ sfx "_s")
          |apply (endswith_exclusive _ sfx "_n")];
          try exact Hend; vm_compute; discriminate
      end. }
  destruct Hs as [Hs Hn].
  destruct Hc as [[_ H]|[[_ H]|(_ & H & H')]].
  - rewrite H, endswith_app in Hs. discriminate.
  - rewrite H, endswith_app in Hn. discriminate.
  - rewrite H, H' in Hex. discriminate.
Qed.

Lemma detect_lookup (tree : list path) (base : string) :
  dict_get base (detect_pbr_textures tree)
  = match dict_get base (fold_left detect_step (texture_files tree) []) with
    | Some v => if has_pbr_component v then Some v else None
    | None => None
    end.
Proof.
  unfold detect_pbr_textures.
  apply (dict_get_filter has_pbr_component).
  apply discovered_all.
Qed.

(** C7: discovery classifies every enumerated image file by its stem: a
    stem ending in "_s" contributes role specular and one ending in "_n"
    role normal, under the stem without the suffix; a stem ending in "_e",
    "_r", "_m", "_mer" or "_normal" contributes nothing; any other stem
    contributes role diffuse under the whole stem.  Files sharing a base
    name are merged into one set, and the result holds exactly the base
    names whose set has a specular or a normal entry. *)
Theorem detect_pbr_textures_spec (tree : list path) :
  let enumerated := texture_files tree in
  let pbr_sets := detect_pbr_textures tree in
  NoDup (dict_keys pbr_sets) /\
  (forall base,
      dict_mem base pbr_sets = true <->
      exists f, f ∈ enumerated /\
                (path_stem f = base +:+ "_s" \/ path_stem f = base +:+ "_n")) /\
  (forall base role f,
      lookup_component pbr_sets base role = Some f ->
      f ∈ enumerated /\ classified_as f base role) /\
  (forall base role f,
      dict_mem base pbr_sets = true ->
      f ∈ enumerated -> classified_as f base role ->
      is_Some (lookup_component pbr_sets base role)) /\
  (forall f suffix,
      suffix ∈ ignored_suffixes ->
      endswith (path_stem f) suffix = true ->
      (forall base role, ~ classified_as f base role) /\
      (forall sets, detect_step sets f = sets)).
Proof.
  intros enumerated pbr_sets.
  destruct (discovered_all tree) as (Hnd & Hsound & Hcomplete).
  set (all := fold_left detect_step (texture_files tree) []) in *.
  fold enumerated in Hsound, Hcomplete.
  assert (Hget : forall base,
             dict_get base pbr_sets
             = match dict_get base all with
               | Some v => if has_pbr_component v then Some v else None
               | None => None
               end) by apply detect_lookup.
  split; [|split; [|split; [|split]]].
  - unfold pbr_sets, detect_pbr_textures. now apply dict_keys_filter_NoDup.
  - intros base. unfold dict_mem. rewrite Hget. split.
    + destruct (dict_get base all) as [v|] eqn:Ev; [|discriminate].
      destruct (has_pbr_component v) eqn:Hv; [intros _|discriminate].
      unfold has_pbr_component, dict_mem in Hv.
      destruct (dict_get "specular" v) as [f|] eqn:Es.
      * destruct (Hsound base "specular"%string f) as [Hf Hc].
        { unfold lookup_component. now rewrite Ev. }
        exists f. split; [assumption|]. left. now apply classified_specular.
      * destruct (dict_get "normal" v) as [f|] eqn:En; [|discriminate].
        destruct (Hsound base "normal"%string f) as [Hf Hc].
        { unfold lookup_component. now rewrite Ev. }
        exists f. split; [assumption|]. right. now apply classified_normal.
    + intros (f & Hf & [Hs|Hn]).
      * apply classified_specular in Hs.
        destruct (Hcomplete _ _ _ Hf Hs) as [g Hg].
        unfold lookup_component in Hg.
        destruct (dict_get base all) as [v|]; [|discriminate].
        cbn in Hg. unfold has_pbr_component, dict_mem. now rewrite Hg.
      * apply classified_normal in Hn.
        destruct (Hcomplete _ _ _ Hf Hn) as [g Hg].
        unfold lookup_component in Hg.
        destruct (dict_get base all) as [v|]; [|discriminate].
        cbn in Hg. unfold has_pbr_component, dict_mem. rewrite Hg.
        now destruct (dict_get "specular" v).
  - intros base role f. unfold lookup_component. rewrite Hget.
    intros H. apply (Hsound base role f). unfold lookup_component.
    destruct (dict_get base all) as [v|]; [|discriminate].
    now destruct (has_pbr_component v).
  - intros base role f Hmem Hf Hc. unfold dict_mem in Hmem.
    unfold lookup_component. rewrite Hget in *.
    destruct (Hcomplete _ _ _ Hf Hc) as [g Hg]. unfold lookup_component in Hg.
    destruct (dict_get base all) as [v|]; [|discriminate].
    destruct (has_pbr_component v); [|discriminate]. now exists g.
  - intros f suffix Hin Hend.
    pose proof (ignored_stem_unclassified f suffix Hin Hend) as Hno.
    split; [assumption|]. intros sets.
    destruct (detect_step_cases sets f) as [(b & r & Hc & _) | [_ H]];
      [now apply Hno in Hc | assumption].
Qed.

(** * Further properties of the transcoders *)

(** ** Shapes and channels *)

Lemma map_length_amap {A B} (f : A -> B) (a : array2 A) :
  List.map (@length B) (amap f a) = List.map (@length A) a.
Proof.
  unfold amap. rewrite List.map_map. apply List.map_ext; intros row.
  apply length_map.
Qed.

(** X1: both transcoders keep the dimensions of their input: the output has
    as many rows as the input and every output row is as long as the input
    row. *)
Theorem transcoders_preserve_shape (a : array2 rgba) :
  List.map (@length rgb) (specular_to_mer_array a) = List.map (@length rgba) a /\
  List.map (@length rgb) (normal_to_bedrock_array a) = List.map (@length rgba) a.
Proof.
  rewrite specular_to_mer_array_pointwise, normal_to_bedrock_array_pointwise.
  split; apply map_length_amap.
Qed.

(** X2: the normal-map transcoder passes X and Y through: every output cell
    has the red and green values of the input cell at the same position. *)
Theorem normal_xy_pass_through (a : array2 rgba) (i j : nat) (p : rgba) :
  pixel_at a i j = Some p ->
  exists q,
    pixel_at (normal_to_bedrock_array a) i j = Some q /\
    rgb_r q = red p /\ rgb_g q = green p.
Proof.
  intros H. exists (normal_pixel p). split; [now apply pixel_at_normal|].
  split; reflexivity.
Qed.

Lemma normal_xy_pass_through_witness :
  exists q,
    pixel_at (normal_to_bedrock_array [[RGBA 3 250 77 1]]) 0 0 = Some q /\
    rgb_r q = 3 /\ rgb_g q = 250.
Proof.
  apply (normal_xy_pass_through [[RGBA 3 250 77 1]] 0 0 (RGBA 3 250 77 1)).
  reflexivity.
Defined.

Lemma roughness_floor_antitone (r1 r2 : Z) :
  uint8 r1 -> uint8 r2 -> r1 <= r2 -> roughness_floor r2 <= roughness_floor r1.
Proof.
  unfold uint8, roughness_floor. intros H1 H2 Hle.
  apply Z.div_le_mono; [lia | nia].
Qed.

(** X3: roughness falls as smoothness rises: for two input cells (of the
    same or of different images) with smoothness r1 <= r2, the output
    roughness of the second is at most that of the first. *)
Theorem roughness_antitone (a1 a2 : array2 rgba) (i1 j1 i2 j2 : nat)
    (p1 p2 : rgba) :
  uint8 (red p1) -> uint8 (red p2) ->
  pixel_at a1 i1 j1 = Some p1 ->
  pixel_at a2 i2 j2 = Some p2 ->
  red p1 <= red p2 ->
  exists q1 q2,
    pixel_at (specular_to_mer_array a1) i1 j1 = Some q1 /\
    pixel_at (specular_to_mer_array a2) i2 j2 = Some q2 /\
    rgb_b q2 <= rgb_b q1.
Proof.
  intros H1 H2 Hp1 Hp2 Hle. exists (mer_pixel p1), (mer_pixel p2).
  split; [now apply pixel_at_mer|]. split; [now apply pixel_at_mer|].
  cbn [mer_pixel rgb_b]. rewrite !roughness_of_floor by assumption.
  now apply roughness_floor_antitone.
Qed.

Lemma roughness_antitone_witness :
  exists q1 q2,
    pixel_at (specular_to_mer_array [[RGBA 40 0 0 0; RGBA 200 0 0 0]]) 0 0
      = Some q1 /\
    pixel_at (specular_to_mer_array [[RGBA 40 0 0 0; RGBA 200 0 0 0]]) 0 1
      = Some q2 /\
    rgb_b q2 <= rgb_b q1.
Proof.
  apply (roughness_antitone [[RGBA 40 0 0 0; RGBA 200 0 0 0]]
           [[RGBA 40 0 0 0; RGBA 200 0 0 0]] 0 0 0 1
           (RGBA 40 0 0 0) (RGBA 200 0 0 0));
    try (unfold uint8; simpl; lia); reflexivity.
Defined.

(** X4: the porosity/subsurface (blue) channel of a specular map is read
    but never used: two inputs that agree on the red, green and alpha
    channels of every cell give the same MER array. *)
Theorem specular_ignores_porosity (a1 a2 : array2 rgba) :
  amap (fun p => (red p, green p, alpha p)) a1
  = amap (fun p => (red p, green p, alpha p)) a2 ->
  specular_to_mer_array a1 = specular_to_mer_array a2.
Proof.
  intros H. rewrite !specular_to_mer_array_pointwise.
  transitivity
    (amap (fun t : Z * Z * Z =>
             RGB (metalness_of (snd (fst t))) (emissive_of (snd t))
                 (roughness_of (fst (fst t))))
          (amap (fun p => (red p, green p, alpha p)) a1)).
  - rewrite amap_amap. reflexivity.
  - rewrite H, amap_amap. reflexivity.
Qed.

Lemma specular_ignores_porosity_witness :
  specular_to_mer_array [[RGBA 10 240 0 7; RGBA 128 20 64 255]]
  = specular_to_mer_array [[RGBA 10 240 255 7; RGBA 128 20 3 255]].
Proof.
  apply (specular_ignores_porosity
           [[RGBA 10 240 0 7; RGBA 128 20 64 255]]
           [[RGBA 10 240 255 7; RGBA 128 20 3 255]]).
  reflexivity.
Defined.

(** ** Single-image operations on the file system *)

(** [convert_specular_to_mer] with its failure points spelled out. *)
Lemma convert_specular_to_mer_unfold (specular_path mer_path : path)
    (st : state) :
  convert_specular_to_mer specular_path mer_path st
  = match image_open (fs st) specular_path with
    | Some img =>
        if bool_decide (path_parent mer_path ∈ unwritable (fs st))
           || bool_decide (mer_path ∈ unwritable (fs st))
        then (false, State (incr_errors (stats st)) (fs st))
        else (true,
              State (incr_mer_generated (incr_specular_converted (stats st)))
                    (Filesystem
                       (<[mer_path := FileImage
                            (ImageRGB (specular_to_mer_array
                                         (convert_RGBA img)))]>
                          (files (fs st)))
                       (unwritable (fs st))))
    | None => (false, State (incr_errors (stats st)) (fs st))
    end.
Proof.
  unfold convert_specular_to_mer, try_except, mkdir_p, write_file.
  destruct (image_open (fs st) specular_path) as [img|]; [|reflexivity].
  cbn [mbind option_bind].
  destruct (bool_decide (path_parent mer_path ∈ unwritable (fs st)));
    [reflexivity|].
  cbn [mbind option_bind orb].
  destruct (bool_decide (mer_path ∈ unwritable (fs st))); reflexivity.
Qed.

(** [create_texture_set_json] with its failure points spelled out. *)
Lemma create_texture_set_json_unfold (b : string) (output_dir : path)
    (has_mer has_normal : bool) (st : state) :
  let json_path := texture_set_json_path b output_dir in
  create_texture_set_json b output_dir has_mer has_normal st
  = if (negb (String.eqb (path_name output_dir) "blocks")
        && bool_decide (path_join (path_parent (path_parent output_dir))
                                  "blocks" ∈ unwritable (fs st)))
       || bool_decide (path_parent json_path ∈ unwritable (fs st))
       || bool_decide (json_path ∈ unwritable (fs st))
    then (false, State (incr_errors (stats st)) (fs st))
    else (true,
          State (incr_texture_sets_created (stats st))
                (Filesystem
                   (<[json_path := FileJson
                        (texture_set_json b has_mer has_normal)]>
                      (files (fs st)))
                   (unwritable (fs st)))).
Proof.
  intros json_path.
  unfold create_texture_set_json, try_except, mkdir_p, write_file.
  fold json_path.
  destruct (negb (String.eqb (path_name output_dir) "blocks"));
    cbn [andb orb mbind option_bind];
    repeat match goal with
      | |- context [bool_decide ?P] =>
          destruct (bool_decide P); cbn [andb orb mbind option_bind];
          try reflexivity
      end.
Qed.

Lemma lookup_insert_keeps {V} (m : gmap (list string) V) (k p : list string)
    (v : V) :
  is_Some (m !! p) -> is_Some (<[k := v]> m !! p).
Proof.
  intros H. destruct (decide (k = p)) as [->|Hne].
  - rewrite lookup_insert_eq. eauto.
  - now rewrite lookup_insert_ne.
Qed.

(** X5: a transcoder call touches at most its output path: every other
    path holds what it held, no file disappears, the set of unwritable
    paths stays, and a call that returns [False] leaves the whole file
    system as it was. *)
Theorem transcoders_frame (src dst : path) (st : state) :
  let r1 := convert_specular_to_mer src dst st in
  let r2 := convert_normal_map src dst st in
  (forall p, p <> dst ->
     files (fs (snd r1)) !! p = files (fs st) !! p /\
     files (fs (snd r2)) !! p = files (fs st) !! p) /\
  (forall p, is_Some (files (fs st) !! p) ->
     is_Some (files (fs (snd r1)) !! p) /\
     is_Some (files (fs (snd r2)) !! p)) /\
  unwritable (fs (snd r1)) = unwritable (fs st) /\
  unwritable (fs (snd r2)) = unwritable (fs st) /\
  (fst r1 = false -> fs (snd r1) = fs st) /\
  (fst r2 = false -> fs (snd r2) = fs st).
Proof.
  intros r1 r2. unfold r1, r2.
  rewrite convert_specular_to_mer_unfold, convert_normal_map_unfold.
  destruct (image_open (fs st) src) as [img|];
    destruct (bool_decide (path_parent dst ∈ unwritable (fs st))
              || bool_decide (dst ∈ unwritable (fs st)));
    cbn [fst snd fs files unwritable];
    (split; [intros p Hp; rewrite ?lookup_insert_ne by congruence; auto|]);
    (split; [intros p Hp; split; auto using lookup_insert_keeps|]);
    repeat split; try reflexivity; discriminate.
Qed.

(** X6: a write that fails is an error like a decode that fails: when the
    output path or its directory cannot be written, either transcoder
    returns [False], counts one error and writes nothing, whatever the
    input file holds. *)
Theorem transcoders_write_failure (src dst : path) (st : state) :
  path_parent dst ∈ unwritable (fs st) \/ dst ∈ unwritable (fs st) ->
  convert_specular_to_mer src dst st
  = (false, State (incr_errors (stats st)) (fs st)) /\
  convert_normal_map src dst st
  = (false, State (incr_errors (stats st)) (fs st)).
Proof.
  intros H.
  assert (Hb : bool_decide (path_parent dst ∈ unwritable (fs st))
               || bool_decide (dst ∈ unwritable (fs st)) = true).
  { apply orb_true_iff. destruct H as [H|H]; [left | right];
      now apply bool_decide_eq_true. }
  rewrite convert_specular_to_mer_unfold, convert_normal_map_unfold, Hb.
  destruct (image_open (fs st) src); split; reflexivity.
Qed.

Lemma transcoders_write_failure_witness :
  let st := State reset_stats
              (Filesystem
                 {[ ["java"; "stone_s.png"]%string
                    := FileImage (ImageRGBA [[RGBA 1 2 3 4]]) ]}
                 {[ ["out"; "blocks"; "stone_mer.png"]%string ]}) in
  convert_specular_to_mer ["java"; "stone_s.png"]%string
    ["out"; "blocks"; "stone_mer.png"]%string st
  = (false, State (incr_errors (stats st)) (fs st)) /\
  convert_normal_map ["java"; "stone_s.png"]%string
    ["out"; "blocks"; "stone_mer.png"]%string st
  = (false, State (incr_errors (stats st)) (fs st)).
Proof.
  apply (transcoders_write_failure ["java"; "stone_s.png"]%string
           ["out"; "blocks"; "stone_mer.png"]%string).
  right. cbn [fs unwritable]. apply elem_of_singleton. reflexivity.
Defined.

(** X7: for a PNG output path, a transcoder call succeeds exactly when
    the input decodes and the output path and its directory can be
    written; the file it then leaves at the output path decodes to the
    transcoded array of the input. *)
Theorem transcoders_success (src dst : path) (st : state) :
  saved_as_png dst ->
  let writable :=
    (path_parent dst ∉ unwritable (fs st)) /\ (dst ∉ unwritable (fs st)) in
  let r1 := convert_specular_to_mer src dst st in
  let r2 := convert_normal_map src dst st in
  ((fst r1 = true) <-> (is_Some (image_open (fs st) src) /\ writable)) /\
  ((fst r2 = true) <-> (is_Some (image_open (fs st) src) /\ writable)) /\
  (fst r1 = true ->
   image_open (fs (snd r1)) dst
   = (fun img => ImageRGB (specular_to_mer_array (convert_RGBA img)))
       <$> image_open (fs st) src) /\
  (fst r2 = true ->
   image_open (fs (snd r2)) dst
   = (fun img => ImageRGB (normal_to_bedrock_array (convert_RGBA img)))
       <$> image_open (fs st) src).
Proof.
  intros _ writable r1 r2. unfold writable, r1, r2.
  rewrite convert_specular_to_mer_unfold, convert_normal_map_unfold.
  destruct (image_open (fs st) src) as [img|] eqn:Hopen.
  - destruct (bool_decide (path_parent dst ∈ unwritable (fs st))) eqn:E1;
      destruct (bool_decide (dst ∈ unwritable (fs st))) eqn:E2;
      cbn [orb fst snd fs];
      try apply bool_decide_eq_true in E1;
      try apply bool_decide_eq_true in E2;
      try apply bool_decide_eq_false in E1;
      try apply bool_decide_eq_false in E2;
      repeat split; try discriminate; try tauto; eauto;
      intros _; unfold image_open; cbn [files];
      now rewrite lookup_insert_eq.
  - cbn [fst]. repeat split; try discriminate;
      intros [[x Hx] _]; discriminate Hx.
Qed.

Lemma transcoders_success_witness :
  let src := ["java"; "stone_s.png"]%string in
  let dst := ["out"; "blocks"; "stone_mer.png"]%string in
  let st := State reset_stats
              (Filesystem
                 {[ ["java"; "stone_s.png"]%string
                    := FileImage (ImageRGBA [[RGBA 200 240 9 17]]) ]} ∅) in
  let writable :=
    (path_parent dst ∉ unwritable (fs st)) /\ (dst ∉ unwritable (fs st)) in
  let r1 := convert_specular_to_mer src dst st in
  let r2 := convert_normal_map src dst st in
  ((fst r1 = true) <-> (is_Some (image_open (fs st) src) /\ writable)) /\
  ((fst r2 = true) <-> (is_Some (image_open (fs st) src) /\ writable)) /\
  (fst r1 = true ->
   image_open (fs (snd r1)) dst
   = (fun img => ImageRGB (specular_to_mer_array (convert_RGBA img)))
       <$> image_open (fs st) src) /\
  (fst r2 = true ->
   image_open (fs (snd r2)) dst
   = (fun img => ImageRGB (normal_to_bedrock_array (convert_RGBA img)))
       <$> image_open (fs st) src).
Proof.
  apply (transcoders_success ["java"; "stone_s.png"]%string
           ["out"; "blocks"; "stone_mer.png"]%string
           (State reset_stats
              (Filesystem
                 {[ ["java"; "stone_s.png"]%string
                    := FileImage (ImageRGBA [[RGBA 200 240 9 17]]) ]} ∅))).
  reflexivity.
Defined.

(** X8: a specular map without an alpha channel never emits: for an input
    image of mode RGB or L, every cell of the PNG file a successful call
    writes has emissive (green) 0. *)
Theorem specular_without_alpha_not_emissive (src dst : path) (st : state)
    (img : image) :
  image_open (fs st) src = Some img ->
  (forall a, img <> ImageRGBA a) ->
  saved_as_png dst ->
  fst (convert_specular_to_mer src dst st) = true ->
  exists out,
    image_open (fs (snd (convert_specular_to_mer src dst st))) dst
    = Some (ImageRGB out) /\
    forall i j q, pixel_at out i j = Some q -> rgb_g q = 0.
Proof.
  intros Hopen Hmode _. rewrite convert_specular_to_mer_unfold, Hopen.
  destruct (bool_decide (path_parent dst ∈ unwritable (fs st))
            || bool_decide (dst ∈ unwritable (fs st)));
    cbn [fst snd fs]; [discriminate|]. intros _.
  eexists. split.
  { unfold image_open. cbn [files]. now rewrite lookup_insert_eq. }
  intros i j q. rewrite specular_to_mer_array_pointwise.
  destruct img as [a|a|a]; [now destruct (Hmode a)| |];
    cbn [convert_RGBA]; rewrite amap_amap, pixel_at_amap;
    destruct (pixel_at a i j); cbn; intros [= <-]; reflexivity.
Qed.

Lemma specular_without_alpha_not_emissive_witness :
  let st := State reset_stats
              (Filesystem
                 {[ ["java"; "stone_s.png"]%string
                    := FileImage (ImageRGB [[RGB 200 240 9]]) ]} ∅) in
  let r := convert_specular_to_mer ["java"; "stone_s.png"]%string
             ["out"; "blocks"; "stone_mer.png"]%string st in
  exists out,
    image_open (fs (snd r)) ["out"; "blocks"; "stone_mer.png"]%string
    = Some (ImageRGB out) /\
    forall i j q, pixel_at out i j = Some q -> rgb_g q = 0.
Proof.
  apply (specular_without_alpha_not_emissive
           ["java"; "stone_s.png"]%string
           ["out"; "blocks"; "stone_mer.png"]%string
           (State reset_stats
              (Filesystem
                 {[ ["java"; "stone_s.png"]%string
                    := FileImage (ImageRGB [[RGB 200 240 9]]) ]} ∅))
           (ImageRGB [[RGB 200 240 9]])).
  - unfold image_open. cbn [fs files]. now rewrite lookup_singleton_eq.
  - intros a. discriminate.
  - reflexivity.
  - rewrite convert_specular_to_mer_unfold. unfold image_open.
    cbn [fs files unwritable]. rewrite lookup_singleton_eq.
    rewrite !bool_decide_eq_false_2 by apply not_elem_of_empty. reflexivity.
Defined.

(** ** The descriptor emitter *)

(** X9: the emitter succeeds exactly when the descriptor path and its
    directory (and, for an output directory not named "blocks", the
    "blocks" directory it creates) can be written; a failing call counts
    one error, leaves [texture_sets_created] and the file system as they
    were, and writes no descriptor. *)
Theorem descriptor_emitter_outcome (b : string) (output_dir : path)
    (has_mer has_normal : bool) (st : state) :
  let json_path := texture_set_json_path b output_dir in
  let r := create_texture_set_json b output_dir has_mer has_normal st in
  ((fst r = true) <->
   ((json_path ∉ unwritable (fs st)) /\
    (path_parent json_path ∉ unwritable (fs st)) /\
    (path_name output_dir <> "blocks"%string ->
     path_join (path_parent (path_parent output_dir)) "blocks"
       ∉ unwritable (fs st)))) /\
  (fst r = false -> snd r = State (incr_errors (stats st)) (fs st)) /\
  (fst r = true ->
   texture_sets_created (stats (snd r)) = texture_sets_created (stats st) + 1 /\
   errors (stats (snd r)) = errors (stats st) /\
   forall p, p <> json_path ->
             files (fs (snd r)) !! p = files (fs st) !! p).
Proof.
  intros json_path r. unfold r.
  rewrite create_texture_set_json_unfold. fold json_path.
  destruct (String.eqb_spec (path_name output_dir) "blocks") as [Hn|Hn];
    cbn [negb andb orb];
    repeat match goal with
      | |- context [bool_decide ?P] =>
          let E := fresh "E" in
          destruct (bool_decide P) eqn:E; cbn [andb orb];
          [apply bool_decide_eq_true in E | apply bool_decide_eq_false in E]
      end;
    cbn [fst snd stats fs files incr_texture_sets_created
           texture_sets_created errors];
    (split; [split; [try discriminate; intros _; tauto
                    |intros (? & ? & ?); try reflexivity; tauto]|]);
    (split; [intros; try reflexivity; discriminate|]);
    intros; try discriminate;
    repeat split; intros; now rewrite ?lookup_insert_ne by congruence.
Qed.

Lemma path_join_blocks (d : path) :
  path_join d "blocks" = d ++ ["blocks"%string].
Proof. reflexivity. Qed.

Lemma split_slash_no_slash (l cur : list ascii) :
  "/"%char ∉ l -> split_slash l cur = [str (cur ++ l)].
Proof.
  revert cur. induction l as [|c l IH]; intros cur Hl; cbn.
  - now rewrite app_nil_r.
  - apply not_elem_of_cons in Hl as [Hc Hl].
    destruct (Ascii.eqb_spec c "/"%char) as [->|_]; [contradiction|].
    rewrite IH by assumption. now rewrite <- app_assoc.
Qed.

(** A name without a slash is one component. *)
Lemma path_join_single (p : path) (s : string) :
  "/"%char ∉ chars s -> (2 <= length (chars s))%nat ->
  path_join p s = p ++ [s].
Proof.
  intros Hs Hlen. unfold path_join.
  rewrite bool_decide_eq_false_2.
  - unfold components. rewrite split_slash_no_slash by assumption.
    cbn [app]. rewrite str_chars. cbn [List.filter].
    destruct s as [|a [|b s]]; cbn in Hlen; try lia.
    assert (H : (String a (String b s) =? "")%string = false) by reflexivity.
    rewrite H. clear H.
    assert (H : (String a (String b s) =? ".")%string = false).
    { cbn. destruct (Ascii.eqb a "."%char); reflexivity. }
    rewrite H. reflexivity.
  - intros [k Hk]. apply Hs. rewrite Hk. apply list_elem_of_here.
Qed.

Lemma path_name_snoc (p : path) (s : string) :
  s <> "/"%string -> path_name (p ++ [s]) = s.
Proof.
  intros Hs. unfold path_name. rewrite List.last_last.
  repeat case_match; subst; try reflexivity; contradiction.
Qed.

Lemma path_parent_snoc (p : path) (s : string) :
  s <> "/"%string -> path_parent (p ++ [s]) = p.
Proof.
  intros Hs. unfold path_parent.
  destruct (p ++ [s]) as [|x l] eqn:E; [now destruct p|].
  rewrite <- E.
  assert (H : removelast (p ++ [s]) = p) by apply List.removelast_last.
  repeat case_match; subst; try exact H; try reflexivity.
  all: destruct p as [|y [|z p]]; try discriminate E.
  all: injection E as E; subst; contradiction.
Qed.

(** X10: the descriptor always lands in a directory named "blocks": for a
    texture name without a slash, the descriptor path is named
    "<name>.texture_set.json" and its directory is named "blocks"; when the
    output directory is itself named "blocks" (as in the batch loop) the
    descriptor lies directly in it, beside the derived maps. *)
Theorem descriptor_in_blocks (texture_name : string) (output_dir : path) :
  "/"%char ∉ chars texture_name ->
  let json_path := texture_set_json_path texture_name output_dir in
  path_name json_path = texture_name +:+ ".texture_set.json" /\
  path_name (path_parent json_path) = "blocks"%string /\
  (path_name output_dir = "blocks"%string -> path_parent json_path = output_dir).
Proof.
  intros Hb json_path.
  assert (Hno : "/"%char ∉ chars (texture_name +:+ ".texture_set.json")).
  { rewrite chars_app. intros [H|H]%elem_of_app; [contradiction|].
    cbn in H. repeat (apply elem_of_cons in H as [H|H]; [discriminate H|]).
    now apply elem_of_nil in H. }
  assert (Hlen : (2 <= length (chars (texture_name +:+ ".texture_set.json")))%nat).
  { rewrite chars_app, length_app. cbn. lia. }
  assert (Hne : texture_name +:+ ".texture_set.json" <> "/"%string).
  { intros H. rewrite H in Hlen. cbn in Hlen. lia. }
  unfold json_path, texture_set_json_path.
  destruct (String.eqb_spec (path_name output_dir) "blocks") as [Hn|Hn];
    cbn [negb]; rewrite ?path_join_blocks, path_join_single by assumption;
    rewrite path_name_snoc, path_parent_snoc by assumption.
  - auto.
  - rewrite path_name_snoc by discriminate. split; [reflexivity|].
    split; [reflexivity|]. intros H. contradiction.
Qed.

Lemma descriptor_in_blocks_witness :
  let json_path :=
    texture_set_json_path "stone" ["pack"; "textures"; "items"]%string in
  path_name json_path = "stone.texture_set.json"%string /\
  path_name (path_parent json_path) = "blocks"%string /\
  (path_name ["pack"; "textures"; "items"]%string = "blocks"%string ->
   path_parent json_path = ["pack"; "textures"; "items"]%string).
Proof.
  apply (descriptor_in_blocks "stone" ["pack"; "textures"; "items"]%string).
  intros H. cbn in H.
  repeat (apply elem_of_cons in H as [H|H]; [discriminate H|]).
  now apply elem_of_nil in H.
Defined.

(** * Further properties of discovery *)

Lemma elem_of_glob_ext (tree : list path) (ext : string) (f : path) :
  f ∈ glob_ext tree ext <-> (f ∈ tree /\ endswith (path_name f) ext = true).
Proof.
  unfold glob_ext. rewrite list_elem_of_In, List.filter_In, <- list_elem_of_In.
  reflexivity.
Qed.

Lemma texture_files_split (tree : list path) :
  texture_files tree
  = glob_ext tree ".png" ++ glob_ext tree ".jpg" ++ glob_ext tree ".jpeg"
    ++ glob_ext tree ".tga".
Proof.
  unfold texture_files, texture_extensions. cbn [List.map List.concat].
  now rewrite app_nil_r.
Qed.

Lemma elem_of_texture_files (tree : list path) (f : path) :
  f ∈ texture_files tree <->
  (f ∈ tree /\
   exists ext, ext ∈ texture_extensions /\ endswith (path_name f) ext = true).
Proof.
  rewrite texture_files_split, !elem_of_app, !elem_of_glob_ext.
  unfold texture_extensions. split.
  - intros [[H E]|[[H E]|[[H E]|[H E]]]]; (split; [exact H|]); eexists;
      (split; [|exact E]);
      repeat first [apply list_elem_of_here | apply list_elem_of_further].
  - intros [H (ext & Hext & E)].
    repeat (apply elem_of_cons in Hext as [->|Hext]); [tauto..|].
    now apply elem_of_nil in Hext.
Qed.

Lemma detect_component_found (tree : list path) (base role : string) (f : path) :
  lookup_component (detect_pbr_textures tree) base role = Some f ->
  lookup_component (fold_left detect_step (texture_files tree) []) base role
  = Some f.
Proof.
  unfold lookup_component. rewrite detect_lookup.
  destruct (dict_get base (fold_left detect_step (texture_files tree) []))
    as [v|]; [|discriminate].
  now destruct (has_pbr_component v).
Qed.

(** X11: whatever discovery returns comes from the directory listing and
    has a texture extension: every component of every returned set is an
    entry of the listing whose name ends in ".png", ".jpg", ".jpeg" or
    ".tga", filed under one of the three roles. *)
Theorem detect_components_are_textures (tree : list path) (base role : string)
    (f : path) :
  lookup_component (detect_pbr_textures tree) base role = Some f ->
  f ∈ tree /\
  (exists ext, ext ∈ texture_extensions /\ endswith (path_name f) ext = true) /\
  role ∈ ["specular"; "normal"; "diffuse"]%string.
Proof.
  intros H%detect_component_found.
  destruct (discovered_all tree) as (_ & Hsound & _).
  destruct (Hsound _ _ _ H) as [Hf Hc].
  apply elem_of_texture_files in Hf as [Hf Hext].
  split; [exact Hf|]. split; [exact Hext|].
  destruct Hc as [[-> _]|[[-> _]|[-> _]]];
    repeat first [apply list_elem_of_here | apply list_elem_of_further].
Qed.

Lemma detect_components_are_textures_witness :
  ["t"; "stone_n.jpg"]%string
    ∈ [["t"; "stone_n.jpg"]; ["t"; "notes_s.txt"]]%string /\
  (exists ext, ext ∈ texture_extensions /\
               endswith (path_name ["t"; "stone_n.jpg"]%string) ext = true) /\
  "normal"%string ∈ ["specular"; "normal"; "diffuse"]%string.
Proof.
  apply (detect_components_are_textures
           [["t"; "stone_n.jpg"]; ["t"; "notes_s.txt"]]%string
           "stone" "normal" ["t"; "stone_n.jpg"]%string).
  reflexivity.
Defined.

(** X12: a pack without specular or normal maps is left alone: when no
    enumerated texture has a stem ending in "_s" or "_n", discovery returns
    the empty dictionary and [convert_pbr_textures] returns the state it
    was given (no file written, no counter changed). *)
Theorem no_pbr_maps_no_effect (tree : list path) :
  (forall f, f ∈ texture_files tree ->
             endswith (path_stem f) "_s" = false /\
             endswith (path_stem f) "_n" = false) ->
  detect_pbr_textures tree = [] /\
  forall bedrock_textures_dir texture_mappings st,
    convert_pbr_textures tree bedrock_textures_dir texture_mappings st = st.
Proof.
  intros Hnone.
  assert (Hempty : detect_pbr_textures tree = []).
  { destruct (detect_pbr_textures tree) as [|[k v] rest] eqn:E; [reflexivity|].
    exfalso.
    assert (Hk : dict_get k (detect_pbr_textures tree) = Some v).
    { rewrite E. cbn. now rewrite String.eqb_refl. }
    rewrite detect_lookup in Hk.
    destruct (dict_get k (fold_left detect_step (texture_files tree) []))
      as [v'|] eqn:Ev; [|discriminate].
    destruct (has_pbr_component v') eqn:Hv; [|discriminate].
    destruct (discovered_all tree) as (_ & Hsound & _).
    unfold has_pbr_component, dict_mem in Hv.
    destruct (dict_get "specular" v') as [f|] eqn:Es.
    - destruct (Hsound k "specular"%string f) as [Hf Hc].
      { unfold lookup_component. now rewrite Ev. }
      apply classified_specular in Hc. destruct (Hnone f Hf) as [Hs _].
      rewrite Hc, endswith_app in Hs. discriminate.
    - destruct (dict_get "normal" v') as [f|] eqn:En; [|discriminate].
      destruct (Hsound k "normal"%string f) as [Hf Hc].
      { unfold lookup_component. now rewrite Ev. }
      apply classified_normal in Hc. destruct (Hnone f Hf) as [_ Hn].
      rewrite Hc, endswith_app in Hn. discriminate. }
  split; [exact Hempty|]. intros d m st.
  unfold convert_pbr_textures. now rewrite Hempty.
Qed.

Lemma no_pbr_maps_no_effect_witness :
  detect_pbr_textures [["t"; "stone.png"]; ["t"; "dirt_e.png"]]%string = [] /\
  forall bedrock_textures_dir texture_mappings st,
    convert_pbr_textures [["t"; "stone.png"]; ["t"; "dirt_e.png"]]%string
      bedrock_textures_dir texture_mappings st = st.
Proof.
  apply (no_pbr_maps_no_effect [["t"; "stone.png"]; ["t"; "dirt_e.png"]]%string).
  intros f Hf. change (texture_files _) with
    [["t"; "stone.png"]; ["t"; "dirt_e.png"]]%string in Hf.
  repeat (apply elem_of_cons in Hf as [->|Hf]); [split; reflexivity..|].
  now apply elem_of_nil in Hf.
Defined.

Lemma detect_step_hit (pbr_sets : dict (dict path)) (f : path)
    (base role : string) :
  classified_as f base role ->
  lookup_component (detect_step pbr_sets f) base role = Some f.
Proof.
  intros Hc.
  destruct (detect_step_cases pbr_sets f) as [(b & r & Hc' & ->) | [Hno _]].
  - destruct (classified_as_functional _ _ _ _ _ Hc Hc') as [-> ->].
    rewrite lookup_component_add, !String.eqb_refl. reflexivity.
  - now apply Hno in Hc.
Qed.

Lemma detect_step_miss (pbr_sets : dict (dict path)) (g : path)
    (base role : string) :
  ~ classified_as g base role ->
  lookup_component (detect_step pbr_sets g) base role
  = lookup_component pbr_sets base role.
Proof.
  intros Hno.
  destruct (detect_step_cases pbr_sets g) as [(b & r & Hc & ->) | [_ ->]];
    [|reflexivity].
  rewrite lookup_component_add.
  destruct (String.eqb_spec base b) as [->|Hb]; [|reflexivity].
  destruct (String.eqb_spec role r) as [->|Hr]; [|reflexivity].
  now destruct Hno.
Qed.

Lemma detect_fold_miss (l : list path) (base role : string) :
  Forall (fun g => ~ classified_as g base role) l ->
  forall pbr_sets,
    lookup_component (fold_left detect_step l pbr_sets) base role
    = lookup_component pbr_sets base role.
Proof.
  induction 1 as [|g l Hg _ IH]; intros pbr_sets; cbn [fold_left];
    [reflexivity|].
  rewrite IH. now apply detect_step_miss.
Qed.

Lemma detect_kept_component (tree : list path) (base role : string) :
  dict_mem base (detect_pbr_textures tree) = true ->
  lookup_component (detect_pbr_textures tree) base role
  = lookup_component (fold_left detect_step (texture_files tree) []) base role.
Proof.
  unfold dict_mem, lookup_component. rewrite detect_lookup.
  destruct (dict_get base (fold_left detect_step (texture_files tree) []))
    as [v|]; [|discriminate].
  now destruct (has_pbr_component v).
Qed.

(** X13: when several files claim the same role of the same set, the one
    enumerated last wins: if the enumeration is [before ++ f :: after], [f]
    is classified as (base, role) and no file of [after] is, the returned
    set of [base] (when it is returned) has [f] under [role]. *)
Theorem detect_last_file_wins (tree : list path) (before after : list path)
    (f : path) (base role : string) :
  texture_files tree = before ++ f :: after ->
  classified_as f base role ->
  Forall (fun g => ~ classified_as g base role) after ->
  dict_mem base (detect_pbr_textures tree) = true ->
  lookup_component (detect_pbr_textures tree) base role = Some f.
Proof.
  intros Hsplit Hc Hafter Hmem.
  rewrite detect_kept_component by assumption.
  rewrite Hsplit, fold_left_app. cbn [fold_left].
  rewrite detect_fold_miss by assumption.
  now apply detect_step_hit.
Qed.

Lemma detect_last_file_wins_witness :
  lookup_component
    (detect_pbr_textures [["t"; "stone_s.tga"]; ["t"; "stone_s.png"]]%string)
    "stone" "specular"
  = Some ["t"; "stone_s.tga"]%string.
Proof.
  apply (detect_last_file_wins
           [["t"; "stone_s.tga"]; ["t"; "stone_s.png"]]%string
           [["t"; "stone_s.png"]]%string [] ["t"; "stone_s.tga"]%string
           "stone" "specular").
  - reflexivity.
  - left. split; reflexivity.
  - constructor.
  - reflexivity.
Defined.

Lemma classified_as_decidable (f : path) (base role : string) :
  classified_as f base role \/ ~ classified_as f base role.
Proof.
  destruct (detect_step_cases [] f) as [(b & r & Hc & _) | [Hno _]].
  - destruct (String.eqb_spec base b) as [->|Hb];
      [destruct (String.eqb_spec role r) as [->|Hr]|].
    + now left.
    + right. intros H.
      destruct (classified_as_functional _ _ _ _ _ Hc H). congruence.
    + right. intros H.
      destruct (classified_as_functional _ _ _ _ _ Hc H). congruence.
  - right. apply Hno.
Qed.

Lemma detect_fold_last_classified (l : list path) (base role : string) :
  forall pbr_sets,
    (exists g, g ∈ l /\ classified_as g base role) ->
    exists f, f ∈ l /\ classified_as f base role /\
              lookup_component (fold_left detect_step l pbr_sets) base role
              = Some f.
Proof.
  induction l as [|x l IH] using rev_ind; intros pbr_sets (g & Hg & Hc).
  - now apply elem_of_nil in Hg.
  - rewrite fold_left_app. cbn [fold_left].
    destruct (classified_as_decidable x base role) as [Hx|Hx].
    + exists x. split; [apply elem_of_app; right; apply list_elem_of_here|].
      split; [exact Hx|]. now apply detect_step_hit.
    + rewrite detect_step_miss by assumption.
      apply elem_of_app in Hg as [Hg|Hg%list_elem_of_singleton];
        [|subst; contradiction].
      destruct (IH pbr_sets) as (f & Hf & Hcf & Hl); [eauto|].
      exists f. split; [apply elem_of_app; now left|]. auto.
Qed.

(** X14: ".tga" files take precedence: the four patterns are enumerated in
    the order png, jpg, jpeg, tga, so if the listing has a ".tga" file
    classified as (base, role), the returned set of [base] (when it is
    returned) holds a ".tga" file under [role], whatever other files of
    that classification exist. *)
Theorem detect_tga_precedence (tree : list path) (g : path)
    (base role : string) :
  g ∈ tree ->
  endswith (path_name g) ".tga" = true ->
  classified_as g base role ->
  dict_mem base (detect_pbr_textures tree) = true ->
  exists f,
    lookup_component (detect_pbr_textures tree) base role = Some f /\
    endswith (path_name f) ".tga" = true /\ classified_as f base role.
Proof.
  intros Hg Hext Hc Hmem.
  rewrite detect_kept_component by assumption.
  rewrite texture_files_split, !app_assoc, fold_left_app.
  destruct (detect_fold_last_classified (glob_ext tree ".tga") base role
              (fold_left detect_step
                 ((glob_ext tree ".png" ++ glob_ext tree ".jpg")
                    ++ glob_ext tree ".jpeg") []))
    as (f & Hf & Hcf & Hl).
  { exists g. split; [now apply elem_of_glob_ext | exact Hc]. }
  exists f. split; [exact Hl|]. split; [|exact Hcf].
  now apply elem_of_glob_ext in Hf as [_ Hf].
Qed.

Lemma detect_tga_precedence_witness :
  exists f,
    lookup_component
      (detect_pbr_textures [["t"; "stone_n.tga"]; ["t"; "stone_n.png"]]%string)
      "stone" "normal" = Some f /\
    endswith (path_name f) ".tga" = true /\ classified_as f "stone" "normal".
Proof.
  apply (detect_tga_precedence
           [["t"; "stone_n.tga"]; ["t"; "stone_n.png"]]%string
           ["t"; "stone_n.tga"]%string "stone" "normal").
  - apply list_elem_of_here.
  - reflexivity.
  - right. left. split; reflexivity.
  - reflexivity.
Defined.

(** * Further properties of the batch loop *)

Lemma convert_specular_to_mer_stats (src dst : path) (st : state) :
  stats (snd (convert_specular_to_mer src dst st))
  = if fst (convert_specular_to_mer src dst st)
    then incr_mer_generated (incr_specular_converted (stats st))
    else incr_errors (stats st).
Proof.
  destruct (convert_specular_to_mer_cases src dst st) as [[fs' ->] | ->];
    reflexivity.
Qed.

Lemma convert_normal_map_stats (src dst : path) (st : state) :
  stats (snd (convert_normal_map src dst st))
  = if fst (convert_normal_map src dst st)
    then incr_normal_converted (stats st)
    else incr_errors (stats st).
Proof.
  destruct (convert_normal_map_cases src dst st) as [[fs' ->] | ->];
    reflexivity.
Qed.

Lemma create_texture_set_json_stats (b : string) (output_dir : path)
    (has_mer has_normal : bool) (st : state) :
  stats (snd (create_texture_set_json b output_dir has_mer has_normal st))
  = if fst (create_texture_set_json b output_dir has_mer has_normal st)
    then incr_texture_sets_created (stats st)
    else incr_errors (stats st).
Proof.
  rewrite create_texture_set_json_unfold.
  match goal with |- context [if ?c then _ else _] => destruct c end;
    reflexivity.
Qed.

(** One iteration of the loop advances the counters by at most one set. *)
Lemma process_set_counters (bedrock_textures_dir : path)
    (texture_mappings : option (gmap string string)) (st : state)
    (item : string * dict path) :
  counters_advance 1 (stats st)
    (stats (process_set bedrock_textures_dir texture_mappings st item)).
Proof.
  destruct item as [set_name components]. unfold process_set.
  destruct (dict_get "specular" components) as [sp|].
  - pose proof (convert_specular_to_mer_stats sp
        (path_join (path_join bedrock_textures_dir "blocks")
           (bedrock_base_name_of texture_mappings set_name +:+ "_mer.png")) st)
      as H1.
    destruct (convert_specular_to_mer sp _ st) as [has_mer st1].
    cbn [fst snd] in H1.
    destruct (dict_get "normal" components) as [np|].
    + pose proof (convert_normal_map_stats np
          (path_join (path_join bedrock_textures_dir "blocks")
             (bedrock_base_name_of texture_mappings set_name +:+ "_normal.png"))
          st1) as H2.
      destruct (convert_normal_map np _ st1) as [has_normal st2].
      cbn [fst snd] in H2.
      pose proof (create_texture_set_json_stats
                    (bedrock_base_name_of texture_mappings set_name)
                    (path_join bedrock_textures_dir "blocks")
                    has_mer has_normal st2) as H3.
      destruct (create_texture_set_json _ _ has_mer has_normal st2)
        as [ok st3].
      cbn [fst snd] in H3.
      destruct has_mer, has_normal, ok; cbn [orb fst snd]; rewrite ?H3, ?H2, ?H1;
        unfold counters_advance; destruct (stats st); cbn; lia.
    + pose proof (create_texture_set_json_stats
                    (bedrock_base_name_of texture_mappings set_name)
                    (path_join bedrock_textures_dir "blocks")
                    has_mer false st1) as H3.
      destruct (create_texture_set_json _ _ has_mer false st1) as [ok st3].
      cbn [fst snd] in H3.
      destruct has_mer, ok; cbn [orb fst snd]; rewrite ?H3, ?H1;
        unfold counters_advance; destruct (stats st); cbn; lia.
  - destruct (dict_get "normal" components) as [np|].
    + pose proof (convert_normal_map_stats np
          (path_join (path_join bedrock_textures_dir "blocks")
             (bedrock_base_name_of texture_mappings set_name +:+ "_normal.png"))
          st) as H2.
      destruct (convert_normal_map np _ st) as [has_normal st2].
      cbn [fst snd] in H2.
      pose proof (create_texture_set_json_stats
                    (bedrock_base_name_of texture_mappings set_name)
                    (path_join bedrock_textures_dir "blocks")
                    false has_normal st2) as H3.
      destruct (create_texture_set_json _ _ false has_normal st2)
        as [ok st3].
      cbn [fst snd] in H3.
      destruct has_normal, ok; cbn [orb fst snd]; rewrite ?H3, ?H2;
        unfold counters_advance; destruct (stats st); cbn; lia.
    + cbn [orb]. unfold counters_advance. lia.
Qed.

Lemma counters_advance_trans (n m : Z) (c1 c2 c3 : conversion_stats) :
  counters_advance n c1 c2 -> counters_advance m c2 c3 ->
  counters_advance (n + m) c1 c3.
Proof. unfold counters_advance. lia. Qed.

Lemma convert_sets_counters (bedrock_textures_dir : path)
    (texture_mappings : option (gmap string string))
    (pbr_sets : dict (dict path)) :
  forall st,
    counters_advance (Z.of_nat (length pbr_sets)) (stats st)
      (stats (convert_sets bedrock_textures_dir texture_mappings pbr_sets st)).
Proof.
  unfold convert_sets.
  induction pbr_sets as [|item rest IH]; intros st; cbn [fold_left].
  - unfold counters_advance. cbn. lia.
  - replace (Z.of_nat (length (item :: rest)))
      with (1 + Z.of_nat (length rest)) by (cbn [length]; lia).
    eapply counters_advance_trans; [apply process_set_counters | apply IH].
Qed.

(** X15: whatever the files hold and whichever writes fail, a run of
    [convert_pbr_textures] over n discovered sets never lowers a counter,
    raises [specular_converted] and [mer_generated] by the same amount,
    raises each of them, [normal_converted] and [texture_sets_created] by
    at most n and [errors] by at most 3n, and creates at most as many
    descriptors as it produced maps. *)
Theorem batch_counters_advance (java_tree : list path)
    (bedrock_textures_dir : path)
    (texture_mappings : option (gmap string string)) (st : state) :
  let n := Z.of_nat (length (detect_pbr_textures java_tree)) in
  let c := stats st in
  let c' := stats (convert_pbr_textures java_tree bedrock_textures_dir
                     texture_mappings st) in
  0 <= specular_converted c' - specular_converted c <= n /\
  0 <= normal_converted c' - normal_converted c <= n /\
  mer_generated c' - mer_generated c
  = specular_converted c' - specular_converted c /\
  0 <= texture_sets_created c' - texture_sets_created c <= n /\
  0 <= errors c' - errors c <= 3 * n /\
  texture_sets_created c' - texture_sets_created c
  <= (mer_generated c' - mer_generated c)
     + (normal_converted c' - normal_converted c).
Proof.
  intros n c c'.
  change (counters_advance n c c'). unfold n, c, c', convert_pbr_textures.
  destruct (detect_pbr_textures java_tree) as [|item rest] eqn:E.
  - unfold counters_advance. cbn. lia.
  - apply convert_sets_counters.
Qed.

(** ** What a run may write *)

Lemma fs_extends_refl (outs : list path) (fs0 : filesystem) :
  fs_extends outs fs0 fs0.
Proof. repeat split; auto. Qed.

Lemma fs_extends_trans (outs : list path) (fs1 fs2 fs3 : filesystem) :
  fs_extends outs fs1 fs2 -> fs_extends outs fs2 fs3 -> fs_extends outs fs1 fs3.
Proof.
  intros (U1 & F1 & K1) (U2 & F2 & K2). split; [congruence|]. split.
  - intros p Hp. rewrite F2, F1 by assumption. reflexivity.
  - auto.
Qed.

Lemma fs_extends_insert (outs : list path) (fs0 : filesystem) (p : path)
    (c : file) :
  p ∈ outs ->
  fs_extends outs fs0 (Filesystem (<[p := c]> (files fs0)) (unwritable fs0)).
Proof.
  intros Hp. split; [reflexivity|]. cbn [files]. split.
  - intros q Hq. apply lookup_insert_ne. congruence.
  - intros q. apply lookup_insert_keeps.
Qed.

Lemma convert_specular_to_mer_extends (outs : list path) (src dst : path)
    (st : state) :
  dst ∈ outs ->
  fs_extends outs (fs st) (fs (snd (convert_specular_to_mer src dst st))).
Proof.
  intros H. rewrite convert_specular_to_mer_unfold.
  destruct (image_open (fs st) src); [|apply fs_extends_refl].
  match goal with |- context [if ?c then _ else _] => destruct c end;
    [apply fs_extends_refl | now apply fs_extends_insert].
Qed.

Lemma convert_normal_map_extends (outs : list path) (src dst : path)
    (st : state) :
  dst ∈ outs ->
  fs_extends outs (fs st) (fs (snd (convert_normal_map src dst st))).
Proof.
  intros H. rewrite convert_normal_map_unfold.
  destruct (image_open (fs st) src); [|apply fs_extends_refl].
  match goal with |- context [if ?c then _ else _] => destruct c end;
    [apply fs_extends_refl | now apply fs_extends_insert].
Qed.

Lemma create_texture_set_json_extends (outs : list path) (b : string)
    (output_dir : path) (has_mer has_normal : bool) (st : state) :
  texture_set_json_path b output_dir ∈ outs ->
  fs_extends outs (fs st)
    (fs (snd (create_texture_set_json b output_dir has_mer has_normal st))).
Proof.
  intros H. rewrite create_texture_set_json_unfold.
  match goal with |- context [if ?c then _ else _] => destruct c end;
    [apply fs_extends_refl | now apply fs_extends_insert].
Qed.

Lemma process_set_extends (outs : list path) (bedrock_textures_dir : path)
    (texture_mappings : option (gmap string string)) (st : state)
    (item : string * dict path) :
  item_outputs bedrock_textures_dir texture_mappings item ⊆ outs ->
  fs_extends outs (fs st)
    (fs (process_set bedrock_textures_dir texture_mappings st item)).
Proof.
  destruct item as [set_name components]. unfold item_outputs.
  cbn [fst]. intros Hsub.
  assert (Hmer : path_join (path_join bedrock_textures_dir "blocks")
                   (bedrock_base_name_of texture_mappings set_name +:+ "_mer.png")
                 ∈ outs) by (apply Hsub; apply list_elem_of_here).
  assert (Hnorm : path_join (path_join bedrock_textures_dir "blocks")
                    (bedrock_base_name_of texture_mappings set_name
                     +:+ "_normal.png") ∈ outs)
    by (apply Hsub; apply list_elem_of_further, list_elem_of_here).
  assert (Hjson : texture_set_json_path
                    (bedrock_base_name_of texture_mappings set_name)
                    (path_join bedrock_textures_dir "blocks") ∈ outs)
    by (apply Hsub; do 2 apply list_elem_of_further; apply list_elem_of_here).
  unfold process_set.
  assert (Hspec : forall st0, exists b st1,
             (match dict_get "specular" components with
              | Some specular_path =>
                  convert_specular_to_mer specular_path
                    (path_join (path_join bedrock_textures_dir "blocks")
                       (bedrock_base_name_of texture_mappings set_name
                        +:+ "_mer.png")) st0
              | None => (false, st0)
              end) = (b, st1) /\ fs_extends outs (fs st0) (fs st1)).
  { intros st0. destruct (dict_get "specular" components) as [sp|].
    - pose proof (convert_specular_to_mer_extends outs sp _ st0 Hmer) as H.
      destruct (convert_specular_to_mer sp _ st0) as [b st1]. eauto.
    - exists false, st0. split; [reflexivity | apply fs_extends_refl]. }
  assert (Hnrm : forall st0, exists b st1,
             (match dict_get "normal" components with
              | Some normal_path =>
                  convert_normal_map normal_path
                    (path_join (path_join bedrock_textures_dir "blocks")
                       (bedrock_base_name_of texture_mappings set_name
                        +:+ "_normal.png")) st0
              | None => (false, st0)
              end) = (b, st1) /\ fs_extends outs (fs st0) (fs st1)).
  { intros st0. destruct (dict_get "normal" components) as [np|].
    - pose proof (convert_normal_map_extends outs np _ st0 Hnorm) as H.
      destruct (convert_normal_map np _ st0) as [b st1]. eauto.
    - exists false, st0. split; [reflexivity | apply fs_extends_refl]. }
  destruct (Hspec st) as (hm & st1 & -> & E1).
  destruct (Hnrm st1) as (hn & st2 & -> & E2).
  eapply fs_extends_trans; [exact E1|].
  eapply fs_extends_trans; [exact E2|].
  destruct (hm || hn); [|apply fs_extends_refl].
  now apply create_texture_set_json_extends.
Qed.

Lemma convert_sets_extends (outs : list path) (bedrock_textures_dir : path)
    (texture_mappings : option (gmap string string))
    (pbr_sets : dict (dict path)) :
  Forall (fun item =>
            item_outputs bedrock_textures_dir texture_mappings item ⊆ outs)
         pbr_sets ->
  forall st,
    fs_extends outs (fs st)
      (fs (convert_sets bedrock_textures_dir texture_mappings pbr_sets st)).
Proof.
  unfold convert_sets.
  induction 1 as [|item rest Hitem _ IH]; intros st; cbn [fold_left].
  - apply fs_extends_refl.
  - eapply fs_extends_trans;
      [apply (process_set_extends outs _ _ st item Hitem) | apply IH].
Qed.

(** X16: a run of [convert_pbr_textures] writes only the three output
    paths of the discovered sets (MER map, normal map, descriptor): every
    other path holds what it held, no file is removed, and the unwritable
    paths stay the same. *)
Theorem batch_writes_only_outputs (java_tree : list path)
    (bedrock_textures_dir : path)
    (texture_mappings : option (gmap string string)) (st : state) :
  let st' := convert_pbr_textures java_tree bedrock_textures_dir
               texture_mappings st in
  let outs := List.flat_map
                (item_outputs bedrock_textures_dir texture_mappings)
                (detect_pbr_textures java_tree) in
  unwritable (fs st') = unwritable (fs st) /\
  (forall p, p ∉ outs -> files (fs st') !! p = files (fs st) !! p) /\
  (forall p, is_Some (files (fs st) !! p) -> is_Some (files (fs st') !! p)).
Proof.
  intros st' outs. change (fs_extends outs (fs st) (fs st')).
  unfold st', convert_pbr_textures.
  destruct (detect_pbr_textures java_tree) as [|item rest] eqn:E;
    [apply fs_extends_refl|].
  apply convert_sets_extends. apply Forall_forall. intros it Hit p Hp.
  unfold outs. apply list_elem_of_In, List.in_flat_map.
  exists it. split; now apply list_elem_of_In.
Qed.

(** ** Output names *)

Lemma remove_all_skip (old l : list ascii) (k : nat) :
  (length l <= k)%nat -> remove_all old l k = [].
Proof.
  revert k. induction l as [|c l IH]; intros k Hk; [reflexivity|].
  cbn in *. destruct k as [|k]; [lia|]. apply IH. lia.
Qed.

Lemma dot_not_prefix (old' l : list ascii) (c : ascii) :
  c <> "."%char -> ~ ("."%char :: old') `prefix_of` (c :: l).
Proof. intros Hc [k Hk]. injection Hk as Hk _. congruence. Qed.

(** Removing a pattern that starts with a dot from a text without dots
    changes nothing. *)
Lemma remove_all_no_dot (old' l : list ascii) :
  "."%char ∉ l -> remove_all ("."%char :: old') l 0 = l.
Proof.
  induction l as [|c l IH]; intros Hl; [reflexivity|].
  apply not_elem_of_cons in Hl as [Hc Hl]. cbn [remove_all].
  rewrite bool_decide_eq_false_2 by (apply dot_not_prefix; congruence).
  cbn [andb]. now rewrite IH.
Qed.

(** Removing it from a text without dots followed by the pattern leaves
    the text. *)
Lemma remove_all_suffix (old' n : list ascii) :
  "."%char ∉ n ->
  remove_all ("."%char :: old') (n ++ "."%char :: old') 0 = n.
Proof.
  induction n as [|c n IH]; intros Hn.
  - cbn [app remove_all].
    rewrite bool_decide_eq_true_2 by reflexivity.
    rewrite bool_decide_eq_false_2 by discriminate. cbn [andb negb].
    apply remove_all_skip. cbn. lia.
  - apply not_elem_of_cons in Hn as [Hc Hn]. cbn [app remove_all].
    rewrite bool_decide_eq_false_2 by (apply dot_not_prefix; congruence).
    cbn [andb]. now rewrite IH.
Qed.

Lemma remove_png_keeps_tga (n : list ascii) :
  "."%char ∉ n ->
  remove_all (chars ".png") (n ++ chars ".tga") 0 = n ++ chars ".tga".
Proof.
  induction n as [|c n IH]; intros Hn; [reflexivity|].
  apply not_elem_of_cons in Hn as [Hc Hn]. cbn [app remove_all].
  rewrite bool_decide_eq_false_2 by (apply dot_not_prefix; congruence).
  cbn [andb]. now rewrite IH.
Qed.

(** X17: a mapped texture name loses its extension: when
    [texture_mappings] maps "<set>.png" to "<n>.png" or "<n>.tga" and [n]
    has no dot, the Bedrock base name of the set is [n] (so its outputs are
    "<n>_mer.png", "<n>_normal.png" and "<n>.texture_set.json"); without
    an entry for "<set>.png", or without mappings, it is the set name. *)
Theorem mapped_base_name (texture_mappings : gmap string string)
    (set_name n ext : string) :
  texture_mappings !! (set_name +:+ ".png") = Some (n +:+ ext) ->
  ext = ".png"%string \/ ext = ".tga"%string ->
  "."%char ∉ chars n ->
  bedrock_base_name_of (Some texture_mappings) set_name = n /\
  (forall other : gmap string string,
      other !! (set_name +:+ ".png") = None ->
      bedrock_base_name_of (Some other) set_name = set_name) /\
  bedrock_base_name_of None set_name = set_name.
Proof.
  intros Hmap Hext Hn. split; [|split].
  - unfold bedrock_base_name_of. cbn [mbind option_bind]. rewrite Hmap.
    unfold replace_with_empty. rewrite chars_str, chars_app.
    destruct Hext as [-> | ->].
    + change (chars ".png") with ("."%char :: chars "png").
      rewrite remove_all_suffix by assumption.
      change (chars ".tga") with ("."%char :: chars "tga").
      rewrite remove_all_no_dot by assumption. apply str_chars.
    + rewrite remove_png_keeps_tga by assumption.
      change (chars ".tga") with ("."%char :: chars "tga").
      rewrite remove_all_suffix by assumption. apply str_chars.
  - intros other Hother. unfold bedrock_base_name_of.
    cbn [mbind option_bind]. now rewrite Hother.
  - reflexivity.
Qed.

Lemma mapped_base_name_witness :
  let texture_mappings : gmap string string :=
    {[ "stone_bricks.png"%string := "stonebrick.tga"%string ]} in
  bedrock_base_name_of (Some texture_mappings) "stone_bricks"
  = "stonebrick"%string /\
  (forall other : gmap string string,
      other !! ("stone_bricks" +:+ ".png") = None ->
      bedrock_base_name_of (Some other) "stone_bricks" = "stone_bricks"%string) /\
  bedrock_base_name_of None "stone_bricks" = "stone_bricks"%string.
Proof.
  apply (mapped_base_name
           {[ "stone_bricks.png"%string := "stonebrick.tga"%string ]}
           "stone_bricks" "stonebrick" ".tga").
  - apply lookup_singleton_eq.
  - now right.
  - intros H. cbn in H.
    repeat (apply elem_of_cons in H as [H|H]; [discriminate H|]).
    now apply elem_of_nil in H.
Defined.

(** ** Descriptors and the maps they name *)

Lemma split_slash_app_suffix (l suf cur : list ascii) :
  "/"%char ∉ suf ->
  exists init cur',
    split_slash l cur = init ++ [str cur'] /\
    split_slash (l ++ suf) cur = init ++ [str (cur' ++ suf)].
Proof.
  intros Hsuf. revert cur. induction l as [|c l IH]; intros cur.
  - exists [], cur. split; [reflexivity|]. now apply split_slash_no_slash.
  - cbn [app split_slash]. destruct (Ascii.eqb c "/"%char).
    + destruct (IH []) as (init & cur' & H1 & H2).
      exists (str cur :: init), cur'. now rewrite H1, H2.
    + apply IH.
Qed.

(** The components of a name that ends in a slash-free text of two or
    more characters: that text stays at the end of the last component. *)
Lemma components_app_suffix (b : string) :
  exists (init : list string) (cur' : list ascii),
    forall suf, "/"%char ∉ chars suf -> (2 <= length (chars suf))%nat ->
      components (b +:+ suf) = init ++ [str (cur' ++ chars suf)].
Proof.
  destruct (split_slash_app_suffix (chars b) [] [] ltac:(apply not_elem_of_nil))
    as (init & cur' & E & _).
  exists (List.filter (fun x => negb (String.eqb x "" || String.eqb x "."))
            init), cur'.
  intros suf Hs Ls. unfold components. rewrite chars_app.
  destruct (split_slash_app_suffix (chars b) (chars suf) [] Hs)
    as (init' & cur'' & E1 & E2).
  rewrite E in E1. apply app_inj_tail in E1 as [<- Hc].
  apply (f_equal chars) in Hc. rewrite !chars_str in Hc. subst cur''.
  rewrite E2, List.filter_app. f_equal. cbn [List.filter].
  assert (Hx : (2 <= length (chars (str (cur' ++ chars suf))))%nat).
  { rewrite chars_str, length_app. lia. }
  destruct (str (cur' ++ chars suf)) as [|a [|a' s]]; cbn in Hx; try lia.
  assert (H : (String a (String a' s) =? "")%string = false) by reflexivity.
  rewrite H. clear H.
  assert (H : (String a (String a' s) =? ".")%string = false).
  { cbn. destruct (Ascii.eqb a "."%char); reflexivity. }
  rewrite H. reflexivity.
Qed.

(** Names with a common stem and different slash-free endings give
    different paths. *)
Lemma path_join_suffix_ne (p : path) (b suf1 suf2 : string) :
  "/"%char ∉ chars suf1 -> "/"%char ∉ chars suf2 ->
  (2 <= length (chars suf1))%nat -> (2 <= length (chars suf2))%nat ->
  suf1 <> suf2 ->
  path_join p (b +:+ suf1) <> path_join p (b +:+ suf2).
Proof.
  intros H1 H2 L1 L2 Hne.
  destruct (components_app_suffix b) as (init & cur' & Hgen).
  assert (Hdiff : components (b +:+ suf1) <> components (b +:+ suf2)).
  { rewrite !Hgen by assumption. intros [_ H]%app_inj_tail.
    apply (f_equal chars) in H. rewrite !chars_str in H.
    apply app_inv_head in H. apply Hne. now apply chars_inj. }
  unfold path_join.
  assert (Hpre : bool_decide (["/"%char] `prefix_of` chars (b +:+ suf1))
                 = bool_decide (["/"%char] `prefix_of` chars (b +:+ suf2))).
  { rewrite !chars_app. destruct (chars b) as [|c l] eqn:Eb.
    - cbn [app]. rewrite !bool_decide_eq_false_2; [reflexivity| |].
      + intros [k Hk]. apply H2. rewrite Hk. apply list_elem_of_here.
      + intros [k Hk]. apply H1. rewrite Hk. apply list_elem_of_here.
    - apply bool_decide_ext. split; intros [k Hk]; cbn in Hk;
        injection Hk as -> _; eexists; reflexivity. }
  rewrite Hpre. clear Hpre.
  destruct (bool_decide (["/"%char] `prefix_of` chars (b +:+ suf2)));
    intros H.
  - injection H as H. contradiction.
  - apply app_inv_head in H. contradiction.
Qed.

Lemma texture_set_json_path_blocks (bedrock_textures_dir : path) (b : string) :
  texture_set_json_path b (path_join bedrock_textures_dir "blocks")
  = path_join (path_join bedrock_textures_dir "blocks")
              (b +:+ ".texture_set.json").
Proof.
  unfold texture_set_json_path. rewrite path_join_blocks.
  rewrite path_name_snoc by discriminate. reflexivity.
Qed.

Lemma image_open_kept (m : gmap path file) (u : gset path) (dst p : path)
    (img : image) :
  is_Some (image_open (Filesystem m u) p) ->
  is_Some (image_open (Filesystem (<[dst := FileImage img]> m) u) p).
Proof.
  unfold image_open. cbn [files]. intros H.
  destruct (decide (dst = p)) as [->|Hne].
  - rewrite lookup_insert_eq. eauto.
  - now rewrite lookup_insert_ne.
Qed.

(** What a transcoder call leaves behind, as the loop body needs it. *)
Lemma convert_specular_to_mer_leaves (src dst : path) (st : state) :
  let r := convert_specular_to_mer src dst st in
  texture_sets_created (stats (snd r)) = texture_sets_created (stats st) /\
  (fst r = true -> is_Some (image_open (fs (snd r)) dst)) /\
  (forall p, is_Some (image_open (fs st) p) ->
             is_Some (image_open (fs (snd r)) p)).
Proof.
  intros r. unfold r. rewrite convert_specular_to_mer_unfold.
  destruct st as [c [m u]]. cbn [fs stats files unwritable].
  destruct (image_open (Filesystem m u) src) as [img|];
    [destruct (bool_decide (path_parent dst ∈ u) || bool_decide (dst ∈ u))|];
    cbn [fst snd stats fs];
    repeat split; try discriminate; auto using image_open_kept.
  intros _. unfold image_open. cbn [files].
  rewrite lookup_insert_eq. eauto.
Qed.

Lemma convert_normal_map_leaves (src dst : path) (st : state) :
  let r := convert_normal_map src dst st in
  texture_sets_created (stats (snd r)) = texture_sets_created (stats st) /\
  (fst r = true -> is_Some (image_open (fs (snd r)) dst)) /\
  (forall p, is_Some (image_open (fs st) p) ->
             is_Some (image_open (fs (snd r)) p)).
Proof.
  intros r. unfold r. rewrite convert_normal_map_unfold.
  destruct st as [c [m u]]. cbn [fs stats files unwritable].
  destruct (image_open (Filesystem m u) src) as [img|];
    [destruct (bool_decide (path_parent dst ∈ u) || bool_decide (dst ∈ u))|];
    cbn [fst snd stats fs];
    repeat split; try discriminate; auto using image_open_kept.
  intros _. unfold image_open. cbn [files].
  rewrite lookup_insert_eq. eauto.
Qed.

Lemma descriptor_path_ne (blocks : path) (b suffix : string) :
  suffix = "_mer.png"%string \/ suffix = "_normal.png"%string ->
  path_join blocks (b +:+ ".texture_set.json") <> path_join blocks (b +:+ suffix).
Proof.
  assert (Hno : forall s : string,
             s ∈ [".texture_set.json"; "_mer.png"; "_normal.png"]%string ->
             ("/"%char ∉ chars s) /\ (2 <= length (chars s))%nat).
  { intros s Hs.
    repeat (apply elem_of_cons in Hs as [->|Hs]);
      [| | |now apply elem_of_nil in Hs];
      (split; [|cbn; lia]); intros H; cbn in H;
      repeat (apply elem_of_cons in H as [H|H]; [discriminate H|]);
      now apply elem_of_nil in H. }
  intros [-> | ->]; apply path_join_suffix_ne;
    try discriminate;
    try (apply Hno;
         repeat first [apply list_elem_of_here | apply list_elem_of_further]).
Qed.

(** X18: a descriptor the batch loop writes names only maps that exist:
    when an iteration of the loop creates a descriptor, the file at
    "blocks/<base>.texture_set.json" is that descriptor, it names a MER or
    a normal map, a "metalness_emissive_roughness" entry is "<base>_mer"
    and the image "blocks/<base>_mer.png" exists, and a "normal" entry is
    "<base>_normal" and the image "blocks/<base>_normal.png" exists. *)
Theorem descriptor_names_written_maps (bedrock_textures_dir : path)
    (texture_mappings : option (gmap string string)) (st : state)
    (item : string * dict path) :
  let st' := process_set bedrock_textures_dir texture_mappings st item in
  let b := bedrock_base_name_of texture_mappings (fst item) in
  let blocks := path_join bedrock_textures_dir "blocks" in
  texture_sets_created (stats st') = texture_sets_created (stats st) + 1 ->
  exists j,
    files (fs st') !! path_join blocks (b +:+ ".texture_set.json")
    = Some (FileJson j) /\
    (forall v,
        json_member "minecraft:texture_set" j
          ≫= json_member "metalness_emissive_roughness" = Some v ->
        v = JString (b +:+ "_mer") /\
        is_Some (image_open (fs st') (path_join blocks (b +:+ "_mer.png")))) /\
    (forall v,
        json_member "minecraft:texture_set" j ≫= json_member "normal" = Some v ->
        v = JString (b +:+ "_normal") /\
        is_Some (image_open (fs st') (path_join blocks (b +:+ "_normal.png")))) /\
    (is_Some (json_member "minecraft:texture_set" j
                ≫= json_member "metalness_emissive_roughness") \/
     is_Some (json_member "minecraft:texture_set" j ≫= json_member "normal")).
Proof.
  destruct item as [set_name components]. cbv zeta. cbn [fst].
  unfold process_set.
  pose proof (texture_set_json_path_blocks bedrock_textures_dir
                (bedrock_base_name_of texture_mappings set_name)) as Ejson.
  remember (bedrock_base_name_of texture_mappings set_name) as b eqn:Eb.
  remember (path_join bedrock_textures_dir "blocks") as blocks eqn:Eblocks.
  clear Eb Eblocks.
  set (mer_path := path_join blocks (b +:+ "_mer.png")).
  set (normal_out_path := path_join blocks (b +:+ "_normal.png")).
  assert (F1 : exists hm st1,
             (match dict_get "specular" components with
              | Some specular_path =>
                  convert_specular_to_mer specular_path mer_path st
              | None => (false, st)
              end) = (hm, st1) /\
             texture_sets_created (stats st1) = texture_sets_created (stats st) /\
             (hm = true -> is_Some (image_open (fs st1) mer_path))).
  { destruct (dict_get "specular" components) as [sp|].
    - destruct (convert_specular_to_mer_leaves sp mer_path st) as (A & B & _).
      destruct (convert_specular_to_mer sp mer_path st) as [hm st1].
      exists hm, st1. auto.
    - exists false, st. repeat split. discriminate. }
  destruct F1 as (hm & st1 & -> & T1 & M1).
  assert (F2 : exists hn st2,
             (match dict_get "normal" components with
              | Some normal_path =>
                  convert_normal_map normal_path normal_out_path st1
              | None => (false, st1)
              end) = (hn, st2) /\
             texture_sets_created (stats st2) = texture_sets_created (stats st1) /\
             (hn = true -> is_Some (image_open (fs st2) normal_out_path)) /\
             (forall p, is_Some (image_open (fs st1) p) ->
                        is_Some (image_open (fs st2) p))).
  { destruct (dict_get "normal" components) as [np|].
    - destruct (convert_normal_map_leaves np normal_out_path st1)
        as (A & B & C).
      destruct (convert_normal_map np normal_out_path st1) as [hn st2].
      exists hn, st2. auto.
    - exists false, st1. repeat split; auto. discriminate. }
  destruct F2 as (hn & st2 & -> & T2 & M2 & K2).
  destruct (hm || hn) eqn:Hor; [|intros Hcount; lia].
  rewrite create_texture_set_json_unfold, Ejson.
  match goal with |- context [if ?c then _ else _] => destruct c end;
    cbn [snd stats fs files texture_sets_created incr_errors
           incr_texture_sets_created];
    intros Hcount; [lia|].
  exists (texture_set_json b hm hn). split; [apply lookup_insert_eq|].
  assert (Hmer : hm = true ->
            is_Some (image_open
                       (Filesystem
                          (<[path_join blocks (b +:+ ".texture_set.json")
                             := FileJson (texture_set_json b hm hn)]>
                             (files (fs st2))) (unwritable (fs st2)))
                       mer_path)).
  { intros H. rewrite image_open_insert_ne
      by (apply descriptor_path_ne; now left).
    exact (K2 _ (M1 H)). }
  assert (Hnorm : hn = true ->
            is_Some (image_open
                       (Filesystem
                          (<[path_join blocks (b +:+ ".texture_set.json")
                             := FileJson (texture_set_json b hm hn)]>
                             (files (fs st2))) (unwritable (fs st2)))
                       normal_out_path)).
  { intros H. rewrite image_open_insert_ne
      by (apply descriptor_path_ne; now right).
    exact (M2 H). }
  destruct (texture_set_json_members b hm hn) as (_ & _ & Jm & Jn).
  cbv zeta in Jm, Jn. rewrite Jm, Jn.
  split; [|split].
  - destruct hm; [|discriminate]. intros v [= <-]. auto.
  - destruct hn; [|discriminate]. intros v [= <-]. auto.
  - destruct hm; [left; eauto|]. destruct hn; [right; eauto|discriminate].
Qed.

Lemma descriptor_names_written_maps_witness :
  let st := State reset_stats
              (Filesystem
                 {[ ["java"; "stone_s.png"]%string
                    := FileImage (ImageRGB [[RGB 200 240 9]]) ]} ∅) in
  let st' := process_set ["out"]%string None st
               ("stone"%string,
                [("specular"%string, ["java"; "stone_s.png"]%string)]) in
  exists j,
    files (fs st') !! ["out"; "blocks"; "stone.texture_set.json"]%string
    = Some (FileJson j) /\
    (forall v,
        json_member "minecraft:texture_set" j
          ≫= json_member "metalness_emissive_roughness" = Some v ->
        v = JString "stone_mer" /\
        is_Some (image_open (fs st')
                   ["out"; "blocks"; "stone_mer.png"]%string)) /\
    (forall v,
        json_member "minecraft:texture_set" j ≫= json_member "normal" = Some v ->
        v = JString "stone_normal" /\
        is_Some (image_open (fs st')
                   ["out"; "blocks"; "stone_normal.png"]%string)) /\
    (is_Some (json_member "minecraft:texture_set" j
                ≫= json_member "metalness_emissive_roughness") \/
     is_Some (json_member "minecraft:texture_set" j ≫= json_member "normal")).
Proof.
  apply (descriptor_names_written_maps ["out"]%string None
           (State reset_stats
              (Filesystem
                 {[ ["java"; "stone_s.png"]%string
                    := FileImage (ImageRGB [[RGB 200 240 9]]) ]} ∅))
           ("stone"%string,
            [("specular"%string, ["java"; "stone_s.png"]%string)])).
  vm_compute. reflexivity.
Defined.

(** * MER from separate maps *)

Lemma pixel_at_azip {A B C} (f : A -> B -> C) (a : array2 A) (b : array2 B)
    (i j : nat) :
  pixel_at (azip f a b) i j
  = match pixel_at a i j, pixel_at b i j with
    | Some x, Some y => Some (f x y)
    | _, _ => None
    end.
Proof.
  unfold pixel_at, azip. rewrite lookup_zip_with.
  destruct (a !! i) as [ra|]; cbn; [|reflexivity].
  destruct (b !! i) as [rb|]; cbn.
  - rewrite lookup_zip_with. destruct (ra !! j); cbn; [|reflexivity].
    destruct (rb !! j); reflexivity.
  - destruct (ra !! j); reflexivity.
Qed.

Lemma map_length_azip {A B C} (f : A -> B -> C) (a : array2 A) (b : array2 B) :
  List.map (@length A) a = List.map (@length B) b ->
  List.map (@length C) (azip f a b) = List.map (@length A) a.
Proof.
  unfold azip. revert b. induction a as [|ra a IH]; intros [|rb b] H;
    cbn in *; try discriminate; [reflexivity|].
  injection H as H1 H2. rewrite IH by assumption.
  rewrite length_zip_with. f_equal. lia.
Qed.

Lemma broadcast_axis_length {A} (n : nat) (l l' : list A) :
  broadcast_axis n l = Some l' -> length l' = n.
Proof.
  unfold broadcast_axis. destruct (Nat.eqb_spec (length l) n) as [E|E].
  - intros [= <-]. exact E.
  - destruct l as [|x [|y l]]; try discriminate.
    intros [= <-]. apply length_replicate.
Qed.

Lemma broadcast_axis_same {A} (n : nat) (l : list A) :
  length l = n -> broadcast_axis n l = Some l.
Proof.
  intros H. unfold broadcast_axis. now rewrite (proj2 (Nat.eqb_eq _ _) H).
Qed.

Lemma broadcast_axis_mismatch {A} (n : nat) (l : list A) :
  length l <> n -> length l <> 1%nat -> broadcast_axis n l = None.
Proof.
  intros Hn H1. unfold broadcast_axis.
  destruct (Nat.eqb_spec (length l) n) as [E|E]; [contradiction|].
  destruct l as [|x [|y l]]; try reflexivity. now destruct H1.
Qed.

Lemma mapM_broadcast_axis_shape {A} (w : nat) (c rows : array2 A) :
  mapM (broadcast_axis w) c = Some rows ->
  length rows = length c /\ Forall (fun row => length row = w) rows.
Proof.
  intros H%mapM_Some. split; [symmetry; eapply Forall2_length; exact H|].
  induction H as [|row row' c rows Hrow _ IH]; constructor; [|exact IH].
  eapply broadcast_axis_length; exact Hrow.
Qed.

Lemma Forall_length_shape {A} (w : nat) (rows : array2 A) :
  Forall (fun row => length row = w) rows ->
  List.map (@length A) rows = replicate (length rows) w.
Proof.
  induction 1 as [|row rows Hrow _ IH]; cbn; [reflexivity|].
  now rewrite Hrow, IH.
Qed.

Lemma broadcast_to_shape (h w : nat) (c c' : array2 Z) :
  broadcast_to h w c = Some c' ->
  List.map (@length Z) c' = replicate h w.
Proof.
  unfold broadcast_to.
  destruct (mapM (broadcast_axis w) c) as [rows|] eqn:E; cbn; [|discriminate].
  apply mapM_broadcast_axis_shape in E as [_ Hrows]. intros Hc'.
  pose proof (broadcast_axis_length _ _ _ Hc') as Hlen.
  assert (Hall : Forall (fun row => length row = w) c').
  { unfold broadcast_axis in Hc'.
    destruct (length rows =? h)%nat; [now injection Hc' as <-|].
    destruct rows as [|x [|y rows]]; try discriminate.
    injection Hc' as <-. apply Forall_replicate.
    now apply Forall_inv in Hrows. }
  rewrite (Forall_length_shape w c' Hall), Hlen. reflexivity.
Qed.

Lemma broadcast_to_same (h w : nat) (c : array2 Z) :
  List.map (@length Z) c = replicate h w -> broadcast_to h w c = Some c.
Proof.
  intros H. unfold broadcast_to.
  assert (Hlen : length c = h).
  { apply (f_equal (@length nat)) in H.
    now rewrite length_map, length_replicate in H. }
  assert (Hrows : mapM (broadcast_axis w) c = Some c).
  { apply mapM_Some. clear Hlen. revert h H.
    induction c as [|row c IH]; intros h H; [constructor|].
    destruct h as [|h]; [discriminate|]. cbn in H. injection H as Hw Hc.
    constructor; [now apply broadcast_axis_same | now apply (IH h)]. }
  rewrite Hrows. cbn. now apply broadcast_axis_same.
Qed.

Lemma broadcast_to_mismatch (h w : nat) (c : array2 Z) :
  (length c <> h /\ length c <> 1%nat) \/
  (exists row, row ∈ c /\ length row <> w /\ length row <> 1%nat) ->
  broadcast_to h w c = None.
Proof.
  intros H. unfold broadcast_to.
  destruct (mapM (broadcast_axis w) c) as [rows|] eqn:E; cbn; [|reflexivity].
  destruct H as [[Hh H1] | (row & Hin & Hw & H1)].
  - apply mapM_broadcast_axis_shape in E as [Hlen _].
    apply broadcast_axis_mismatch; congruence.
  - exfalso. assert (Hsome : is_Some (mapM (broadcast_axis w) c)) by eauto.
    apply mapM_is_Some_1 in Hsome.
    rewrite Forall_forall in Hsome. destruct (Hsome row Hin) as [row' Hrow].
    cbn in Hrow. now rewrite broadcast_axis_mismatch in Hrow.
Qed.

Lemma assign_channel_shape (k h w : nat) (mer_array mer_array' : array2 rgb)
    (c : array2 Z) :
  List.map (@length rgb) mer_array = replicate h w ->
  assign_channel k h w mer_array c = Some mer_array' ->
  List.map (@length rgb) mer_array' = replicate h w.
Proof.
  intros Hshape. unfold assign_channel.
  destruct (broadcast_to h w c) as [c'|] eqn:E; cbn; [|discriminate].
  apply broadcast_to_shape in E. intros [= <-].
  destruct k as [|[|k]]; unfold set_channel0, set_channel1, set_channel2;
    rewrite map_length_azip; congruence.
Qed.

Lemma fill_channel_shape (grayscale : image -> array2 Z) (fs0 : filesystem)
    (k : nat) (p : option path) (h w : nat) (mer_array mer_array' : array2 rgb) :
  List.map (@length rgb) mer_array = replicate h w ->
  fill_channel grayscale fs0 k p h w mer_array = Some mer_array' ->
  List.map (@length rgb) mer_array' = replicate h w.
Proof.
  intros Hshape. unfold fill_channel.
  destruct (existing fs0 p) as [q|]; [|now intros [= <-]].
  destruct (image_open fs0 q) as [img|]; cbn; [|discriminate].
  now apply assign_channel_shape.
Qed.

Lemma zeros_shape (h w : nat) :
  List.map (@length rgb) (replicate h (replicate w (RGB 0 0 0)))
  = replicate h w.
Proof.
  induction h as [|h IH]; cbn; [reflexivity|].
  now rewrite length_replicate, IH.
Qed.

Lemma pixel_at_zeros (h w i j : nat) (q : rgb) :
  pixel_at (replicate h (replicate w (RGB 0 0 0))) i j = Some q ->
  q = RGB 0 0 0.
Proof.
  unfold pixel_at.
  destruct (replicate h (replicate w (RGB 0 0 0)) !! i) as [row|] eqn:E;
    [|discriminate].
  apply lookup_replicate in E as [-> _].
  intros H. now apply lookup_replicate in H as [-> _].
Qed.

(** How a successful call came about. *)
Lemma generate_mer_cases (grayscale : image -> array2 Z)
    (metallic_path emissive_path roughness_path output_path : option path)
    (st : state) :
  let r := generate_mer_from_individual_maps grayscale metallic_path
             emissive_path roughness_path output_path st in
  r = (false, st) \/
  exists ref img out a1 a2 a3,
    reference_path (fs st) metallic_path emissive_path roughness_path
    = Some ref /\
    image_open (fs st) ref = Some img /\
    output_path = Some out /\
    fill_channel grayscale (fs st) 0 metallic_path
      (snd (image_size img)) (fst (image_size img))
      (replicate (snd (image_size img))
                 (replicate (fst (image_size img)) (RGB 0 0 0))) = Some a1 /\
    fill_channel grayscale (fs st) 1 emissive_path
      (snd (image_size img)) (fst (image_size img)) a1 = Some a2 /\
    fill_channel grayscale (fs st) 2 roughness_path
      (snd (image_size img)) (fst (image_size img)) a2 = Some a3 /\
    (path_parent out ∉ unwritable (fs st)) /\
    (out ∉ unwritable (fs st)) /\
    r = (true,
         State (stats st)
               (Filesystem (<[out := FileImage (ImageRGB a3)]> (files (fs st)))
                           (unwritable (fs st)))).
Proof.
  intros r. unfold r, generate_mer_from_individual_maps.
  destruct (reference_path (fs st) metallic_path emissive_path roughness_path)
    as [ref|] eqn:Href; [|now left].
  destruct (image_open (fs st) ref) as [img|] eqn:Himg; cbn; [|now left].
  destruct (image_size img) as [width height] eqn:Hsize. cbn [fst snd].
  destruct (fill_channel grayscale (fs st) 0 metallic_path height width _)
    as [a1|] eqn:H1; cbn; [|now left].
  destruct (fill_channel grayscale (fs st) 1 emissive_path height width a1)
    as [a2|] eqn:H2; cbn; [|now left].
  destruct (fill_channel grayscale (fs st) 2 roughness_path height width a2)
    as [a3|] eqn:H3; cbn; [|now left].
  destruct output_path as [out|]; cbn; [|now left].
  unfold mkdir_p, write_file.
  destruct (bool_decide (path_parent out ∈ unwritable (fs st))) eqn:E1;
    cbn; [now left|].
  destruct (bool_decide (out ∈ unwritable (fs st))) eqn:E2; cbn; [now left|].
  apply bool_decide_eq_false in E1, E2.
  right. exists ref, img, out, a1, a2, a3. rewrite Hsize. cbn [fst snd].
  repeat split; auto.
Qed.

(** X19: [generate_mer_from_individual_maps] never touches the counters,
    not even [errors] when it fails; a call that returns [False] leaves the
    whole state as it was; and it returns [False] when none of the three
    maps is given and exists, or when no output path is given. *)
Theorem generate_mer_leaves_counters (grayscale : image -> array2 Z)
    (metallic_path emissive_path roughness_path output_path : option path)
    (st : state) :
  let r := generate_mer_from_individual_maps grayscale metallic_path
             emissive_path roughness_path output_path st in
  stats (snd r) = stats st /\
  (fst r = false -> snd r = st) /\
  (reference_path (fs st) metallic_path emissive_path roughness_path = None ->
   fst r = false) /\
  (output_path = None -> fst r = false).
Proof.
  intros r.
  destruct (generate_mer_cases grayscale metallic_path emissive_path
              roughness_path output_path st)
    as [H | (ref & img & out & a1 & a2 & a3 & Href & _ & Hout & _ & _ & _
             & _ & _ & H)];
    fold r in H; rewrite H; cbn [fst snd stats].
  - repeat split; reflexivity.
  - repeat split; try discriminate; congruence.
Qed.

(** X20: the MER image has the dimensions of the reference map (the first
    of metallic, emissive, roughness that exists): a successful call leaves
    at its PNG output path an RGB image with as many rows as the reference
    is high, each as long as the reference is wide, and touches no other
    path. *)
Theorem generate_mer_dimensions (grayscale : image -> array2 Z)
    (metallic_path emissive_path roughness_path : option path) (out : path)
    (st : state) :
  let r := generate_mer_from_individual_maps grayscale metallic_path
             emissive_path roughness_path (Some out) st in
  saved_as_png out ->
  fst r = true ->
  exists ref img mer_array,
    reference_path (fs st) metallic_path emissive_path roughness_path
    = Some ref /\
    image_open (fs st) ref = Some img /\
    image_open (fs (snd r)) out = Some (ImageRGB mer_array) /\
    List.map (@length rgb) mer_array
    = replicate (snd (image_size img)) (fst (image_size img)) /\
    (forall p, p <> out -> files (fs (snd r)) !! p = files (fs st) !! p).
Proof.
  intros r _ Hok.
  destruct (generate_mer_cases grayscale metallic_path emissive_path
              roughness_path (Some out) st)
    as [H | (ref & img & out' & a1 & a2 & a3 & Href & Himg & [= <-] & H1 & H2
             & H3 & _ & _ & H)];
    fold r in H; rewrite H in *; [discriminate Hok|].
  exists ref, img, a3. cbn [snd fs].
  repeat split; try assumption.
  - unfold image_open. cbn [files]. now rewrite lookup_insert_eq.
  - eapply fill_channel_shape; [|exact H3].
    eapply fill_channel_shape; [|exact H2].
    eapply fill_channel_shape; [|exact H1].
    apply zeros_shape.
  - intros p Hp. cbn [files]. apply lookup_insert_ne. congruence.
Qed.

Lemma generate_mer_dimensions_witness :
  let st := State reset_stats
              (Filesystem
                 {[ ["r.png"]%string := FileImage (ImageL [[7; 8]]) ]} ∅) in
  let r := generate_mer_from_individual_maps (fun _ => [])
             None (Some ["e.png"]%string) (Some ["r.png"]%string)
             (Some ["out"; "mer.png"]%string) st in
  exists ref img mer_array,
    reference_path (fs st) None (Some ["e.png"]%string) (Some ["r.png"]%string)
    = Some ref /\
    image_open (fs st) ref = Some img /\
    image_open (fs (snd r)) ["out"; "mer.png"]%string
    = Some (ImageRGB mer_array) /\
    List.map (@length rgb) mer_array
    = replicate (snd (image_size img)) (fst (image_size img)) /\
    (forall p, p <> ["out"; "mer.png"]%string ->
               files (fs (snd r)) !! p = files (fs st) !! p).
Proof.
  apply (generate_mer_dimensions (fun _ => [])
           None (Some ["e.png"]%string) (Some ["r.png"]%string)
           ["out"; "mer.png"]%string
           (State reset_stats
              (Filesystem
                 {[ ["r.png"]%string := FileImage (ImageL [[7; 8]]) ]} ∅)));
    [reflexivity | vm_compute; reflexivity].
Defined.

Lemma existing_open (fs0 : filesystem) (q : path) (img : image) :
  image_open fs0 q = Some img -> existing fs0 (Some q) = Some q.
Proof.
  unfold image_open, existing, path_exists. intros H.
  destruct (files fs0 !! q) as [c|]; [|discriminate].
  rewrite bool_decide_eq_true_2 by eauto. reflexivity.
Qed.

Lemma shape_bounds {A} (c : array2 A) (h w i j : nat) (v : A) :
  List.map (@length A) c = replicate h w ->
  pixel_at c i j = Some v -> (i < h /\ j < w)%nat.
Proof.
  intros Hshape. unfold pixel_at.
  destruct (c !! i) as [row|] eqn:Hrow; [|discriminate]. intros Hv.
  assert (Hl : List.map (@length A) c !! i = Some (length row))
    by now rewrite lookup_map, Hrow.
  rewrite Hshape in Hl. apply lookup_replicate in Hl as [Hw Hi].
  split; [exact Hi|]. apply lookup_lt_Some in Hv. lia.
Qed.

Lemma pixel_at_zeros_in (h w i j : nat) :
  (i < h)%nat -> (j < w)%nat ->
  pixel_at (replicate h (replicate w (RGB 0 0 0))) i j = Some (RGB 0 0 0).
Proof.
  intros Hi Hj. unfold pixel_at.
  rewrite lookup_replicate_2 by assumption.
  now apply lookup_replicate_2.
Qed.

(** What filling one channel does to a cell: the other two channels keep
    their values, and nothing changes when the map is absent. *)
Lemma fill_channel_pixel (grayscale : image -> array2 Z) (fs0 : filesystem)
    (k : nat) (p : option path) (h w : nat) (mer_array mer_array' : array2 rgb)
    (i j : nat) (q' : rgb) :
  fill_channel grayscale fs0 k p h w mer_array = Some mer_array' ->
  pixel_at mer_array' i j = Some q' ->
  exists q,
    pixel_at mer_array i j = Some q /\
    (k <> 0%nat -> rgb_r q' = rgb_r q) /\
    (k <> 1%nat -> rgb_g q' = rgb_g q) /\
    (k = 0%nat \/ k = 1%nat -> rgb_b q' = rgb_b q) /\
    (existing fs0 p = None -> q' = q).
Proof.
  unfold fill_channel.
  destruct (existing fs0 p) as [path0|].
  - destruct (image_open fs0 path0) as [img|]; cbn; [|discriminate].
    unfold assign_channel.
    destruct (broadcast_to h w (grey_array grayscale img)) as [c'|]; cbn;
      [|discriminate].
    intros [= <-].
    destruct k as [|[|k]]; unfold set_channel0, set_channel1, set_channel2;
      rewrite pixel_at_azip;
      destruct (pixel_at mer_array i j) as [q|]; try discriminate;
      destruct (pixel_at c' i j) as [v|]; try discriminate;
      intros [= <-]; exists q; cbn [rgb_r rgb_g rgb_b];
      repeat split; try reflexivity; try discriminate; try congruence;
      intros [H|H]; discriminate H.
  - intros [= <-] Hq. exists q'. repeat split; auto.
Qed.

(** Filling a channel from a map whose grey array has the shape of the
    image puts the grey value into that channel of every cell. *)
Lemma fill_channel_value (grayscale : image -> array2 Z) (fs0 : filesystem)
    (k : nat) (q : path) (img : image) (h w : nat) (mer_array : array2 rgb) :
  image_open fs0 q = Some img ->
  List.map (@length Z) (grey_array grayscale img) = replicate h w ->
  fill_channel grayscale fs0 k (Some q) h w mer_array
  = Some (match k with
          | O => set_channel0 mer_array (grey_array grayscale img)
          | S O => set_channel1 mer_array (grey_array grayscale img)
          | _ => set_channel2 mer_array (grey_array grayscale img)
          end).
Proof.
  intros Hopen Hshape. unfold fill_channel.
  rewrite (existing_open _ _ _ Hopen), Hopen. cbn.
  unfold assign_channel. now rewrite broadcast_to_same.
Qed.

(** X21: three maps of one size are combined cell by cell: when the
    metallic, emissive and roughness maps all decode, their grey arrays
    have the dimensions of the metallic map and the PNG output can be
    written, the call succeeds and every cell of the image it leaves there
    is (metallic, emissive, roughness) at that position. *)
Theorem generate_mer_combines (grayscale : image -> array2 Z)
    (pm pe pr out : path) (im ie ir : image) (h w : nat) (st : state) :
  image_open (fs st) pm = Some im ->
  image_open (fs st) pe = Some ie ->
  image_open (fs st) pr = Some ir ->
  image_size im = (w, h) ->
  List.map (@length Z) (grey_array grayscale im) = replicate h w ->
  List.map (@length Z) (grey_array grayscale ie) = replicate h w ->
  List.map (@length Z) (grey_array grayscale ir) = replicate h w ->
  saved_as_png out ->
  path_parent out ∉ unwritable (fs st) ->
  out ∉ unwritable (fs st) ->
  exists mer_array,
    generate_mer_from_individual_maps grayscale (Some pm) (Some pe) (Some pr)
      (Some out) st
    = (true,
       State (stats st)
             (Filesystem
                (<[out := FileImage (ImageRGB mer_array)]> (files (fs st)))
                (unwritable (fs st)))) /\
    forall i j x y z,
      pixel_at (grey_array grayscale im) i j = Some x ->
      pixel_at (grey_array grayscale ie) i j = Some y ->
      pixel_at (grey_array grayscale ir) i j = Some z ->
      pixel_at mer_array i j = Some (RGB x y z).
Proof.
  intros Hm He Hr Hsize Sm Se Sr _ Hdir Hout.
  exists (set_channel2
            (set_channel1
               (set_channel0 (replicate h (replicate w (RGB 0 0 0)))
                             (grey_array grayscale im))
               (grey_array grayscale ie))
            (grey_array grayscale ir)).
  split.
  - unfold generate_mer_from_individual_maps, reference_path.
    rewrite (existing_open _ _ _ Hm), Hm. cbn [mbind option_bind].
    rewrite Hsize.
    rewrite (fill_channel_value grayscale (fs st) 0 pm im h w _ Hm Sm).
    cbn [mbind option_bind].
    rewrite (fill_channel_value grayscale (fs st) 1 pe ie h w _ He Se).
    cbn [mbind option_bind].
    rewrite (fill_channel_value grayscale (fs st) 2 pr ir h w _ Hr Sr).
    cbn [mbind option_bind].
    unfold mkdir_p, write_file.
    rewrite (bool_decide_eq_false_2 _ Hdir). cbn [mbind option_bind].
    rewrite (bool_decide_eq_false_2 _ Hout). reflexivity.
  - intros i j x y z Hx Hy Hz.
    destruct (shape_bounds _ h w i j x Sm Hx) as [Hi Hj].
    unfold set_channel0, set_channel1, set_channel2.
    rewrite !pixel_at_azip, pixel_at_zeros_in, Hx, Hy, Hz by assumption.
    reflexivity.
Qed.

Lemma generate_mer_combines_witness :
  let st := State reset_stats
              (Filesystem
                 (<[ ["m.png"]%string := FileImage (ImageL [[1; 2]]) ]>
                    (<[ ["e.png"]%string := FileImage (ImageL [[3; 4]]) ]>
                       (<[ ["r.png"]%string := FileImage (ImageL [[5; 6]]) ]>
                          ∅))) ∅) in
  exists mer_array,
    generate_mer_from_individual_maps (fun _ => [])
      (Some ["m.png"]%string) (Some ["e.png"]%string) (Some ["r.png"]%string)
      (Some ["out"; "mer.png"]%string) st
    = (true,
       State (stats st)
             (Filesystem
                (<[ ["out"; "mer.png"]%string
                    := FileImage (ImageRGB mer_array) ]> (files (fs st)))
                (unwritable (fs st)))) /\
    forall i j x y z,
      pixel_at [[1; 2]] i j = Some x ->
      pixel_at [[3; 4]] i j = Some y ->
      pixel_at [[5; 6]] i j = Some z ->
      pixel_at mer_array i j = Some (RGB x y z).
Proof.
  apply (generate_mer_combines (fun _ => [])
           ["m.png"]%string ["e.png"]%string ["r.png"]%string
           ["out"; "mer.png"]%string
           (ImageL [[1; 2]]) (ImageL [[3; 4]]) (ImageL [[5; 6]]) 1 2);
    try reflexivity; apply not_elem_of_empty.
Defined.

(** X22: a channel without a map stays zero: in the PNG image a
    successful call writes, every cell has metalness 0 when no metallic
    map exists, emissive 0 when no emissive map exists, and roughness 0
    when no roughness map exists. *)
Theorem generate_mer_absent_channel_zero (grayscale : image -> array2 Z)
    (metallic_path emissive_path roughness_path : option path) (out : path)
    (st : state) (mer_array : array2 rgb) :
  let r := generate_mer_from_individual_maps grayscale metallic_path
             emissive_path roughness_path (Some out) st in
  saved_as_png out ->
  fst r = true ->
  image_open (fs (snd r)) out = Some (ImageRGB mer_array) ->
  forall i j q,
    pixel_at mer_array i j = Some q ->
    (existing (fs st) metallic_path = None -> rgb_r q = 0) /\
    (existing (fs st) emissive_path = None -> rgb_g q = 0) /\
    (existing (fs st) roughness_path = None -> rgb_b q = 0).
Proof.
  intros r _ Hok Hfile i j q3 Hq3.
  destruct (generate_mer_cases grayscale metallic_path emissive_path
              roughness_path (Some out) st)
    as [H | (ref & img & out' & a1 & a2 & a3 & _ & _ & [= <-] & H1 & H2
             & H3 & _ & _ & H)];
    fold r in H; rewrite H in *; [discriminate Hok|].
  unfold image_open in Hfile. cbn [snd fs files] in Hfile.
  rewrite lookup_insert_eq in Hfile. injection Hfile as <-.
  destruct (fill_channel_pixel _ _ _ _ _ _ _ _ i j q3 H3 Hq3)
    as (q2 & Hq2 & R3 & G3 & _ & E3).
  destruct (fill_channel_pixel _ _ _ _ _ _ _ _ i j q2 H2 Hq2)
    as (q1 & Hq1 & R2 & _ & B2 & E2).
  destruct (fill_channel_pixel _ _ _ _ _ _ _ _ i j q1 H1 Hq1)
    as (q0 & Hq0 & _ & G1 & B1 & E1).
  apply pixel_at_zeros in Hq0. subst q0.
  split; [|split].
  - intros Hn. rewrite R3, R2, (E1 Hn) by discriminate. reflexivity.
  - intros Hn. rewrite G3, (E2 Hn), G1 by discriminate. reflexivity.
  - intros Hn. rewrite (E3 Hn), B2, B1 by auto. reflexivity.
Qed.

Lemma generate_mer_absent_channel_zero_witness :
  let st := State reset_stats
              (Filesystem
                 {[ ["r.png"]%string := FileImage (ImageL [[7; 8]]) ]} ∅) in
  (existing (fs st) None = None -> rgb_r (RGB 0 0 8) = 0) /\
  (existing (fs st) (Some ["e.png"]%string) = None -> rgb_g (RGB 0 0 8) = 0) /\
  (existing (fs st) (Some ["r.png"]%string) = None -> rgb_b (RGB 0 0 8) = 0).
Proof.
  apply (generate_mer_absent_channel_zero (fun _ => [])
           None (Some ["e.png"]%string) (Some ["r.png"]%string)
           ["out"; "mer.png"]%string
           (State reset_stats
              (Filesystem
                 {[ ["r.png"]%string := FileImage (ImageL [[7; 8]]) ]} ∅))
           [[RGB 0 0 7; RGB 0 0 8]])
    with (i := 0%nat) (j := 1%nat);
    [reflexivity | vm_compute; reflexivity | vm_compute; reflexivity
    | reflexivity].
Defined.

(** X23: maps are never resized: when one of the maps that exist decodes
    to a grey array that does not fit the reference map (its height is
    neither the reference height nor 1, or one of its rows is neither as
    long as the reference is wide nor of length 1), the assignment into
    the MER array fails and the call returns [False], leaving the state as
    it was. *)
Theorem generate_mer_rejects_other_size (grayscale : image -> array2 Z)
    (metallic_path emissive_path roughness_path output_path : option path)
    (ref pb : path) (im bad : image) (w h : nat) (st : state) :
  reference_path (fs st) metallic_path emissive_path roughness_path
  = Some ref ->
  image_open (fs st) ref = Some im ->
  image_size im = (w, h) ->
  Some pb ∈ [metallic_path; emissive_path; roughness_path] ->
  image_open (fs st) pb = Some bad ->
  (length (grey_array grayscale bad) <> h /\
   length (grey_array grayscale bad) <> 1%nat) \/
  (exists row, row ∈ grey_array grayscale bad /\
               length row <> w /\ length row <> 1%nat) ->
  generate_mer_from_individual_maps grayscale metallic_path emissive_path
    roughness_path output_path st
  = (false, st).
Proof.
  intros Href Him Hsize Hwhich Hb Hbad.
  assert (Hfill : forall k a,
             fill_channel grayscale (fs st) k (Some pb) h w a = None).
  { intros k a. unfold fill_channel.
    rewrite (existing_open _ _ _ Hb), Hb. cbn [mbind option_bind].
    unfold assign_channel. now rewrite broadcast_to_mismatch. }
  destruct (generate_mer_cases grayscale metallic_path emissive_path
              roughness_path output_path st)
    as [H | (ref' & img & out & a1 & a2 & a3 & Href' & Himg & _ & H1 & H2
             & H3 & _)]; [exact H|].
  exfalso. rewrite Href in Href'. injection Href' as <-.
  rewrite Him in Himg. injection Himg as <-.
  rewrite Hsize in H1, H2, H3. cbn [fst snd] in H1, H2, H3.
  repeat (apply elem_of_cons in Hwhich as [Hw|Hwhich]);
    [rewrite <- Hw, Hfill in H1 | rewrite <- Hw, Hfill in H2
    | rewrite <- Hw, Hfill in H3 | now apply elem_of_nil in Hwhich];
    discriminate.
Qed.

Lemma generate_mer_rejects_other_size_witness :
  let st := State reset_stats
              (Filesystem
                 (<[ ["m.png"]%string := FileImage (ImageL [[1; 1]; [2; 2]]) ]>
                    (<[ ["e.png"]%string := FileImage (ImageL [[4; 5; 6]; [7; 8; 9]]) ]>
                       ∅)) ∅) in
  generate_mer_from_individual_maps (fun _ => [])
    (Some ["m.png"]%string) (Some ["e.png"]%string) None
    (Some ["out"; "mer.png"]%string) st
  = (false, st).
Proof.
  apply (generate_mer_rejects_other_size (fun _ => [])
           (Some ["m.png"]%string) (Some ["e.png"]%string) None
           (Some ["out"; "mer.png"]%string)
           ["m.png"]%string ["e.png"]%string
           (ImageL [[1; 1]; [2; 2]]) (ImageL [[4; 5; 6]; [7; 8; 9]])
           2 2);
    try (vm_compute; reflexivity).
  - apply list_elem_of_further, list_elem_of_here.
  - right. exists [4; 5; 6]. split; [apply list_elem_of_here|].
    cbn. lia.
Defined.

(** * The metal table *)

(** X24: every metal of [metal_definitions] is fully metallic for the
    Specular -> MER transcoder: a cell whose reflectance (green) byte is
    one of the metal IDs of the table gets metalness 255. *)
Theorem metal_ids_saturate (a : array2 rgba) (i j : nat) (p : rgba) :
  pixel_at a i j = Some p ->
  green p ∈ List.map fst metal_definitions ->
  exists q, pixel_at (specular_to_mer_array a) i j = Some q /\ rgb_r q = 255.
Proof.
  intros Hp Hid.
  assert (Hrange : 230 <= green p <= 237).
  { cbn in Hid. repeat (apply elem_of_cons in Hid as [->|Hid]); try lia.
    now apply elem_of_nil in Hid. }
  exists (mer_pixel p). split; [now apply pixel_at_mer|].
  cbn [mer_pixel rgb_r]. unfold metalness_of, metallic_threshold.
  destruct (green p <? 230) eqn:E1; [lia|]. cbn.
  destruct (230 <=? green p) eqn:E2; [reflexivity | lia].
Qed.

Lemma metal_ids_saturate_witness :
  exists q,
    pixel_at (specular_to_mer_array [[RGBA 0 234 0 0]]) 0 0 = Some q /\
    rgb_r q = 255.
Proof.
  apply (metal_ids_saturate [[RGBA 0 234 0 0]] 0 0 (RGBA 0 234 0 0)).
  - reflexivity.
  - cbn. do 4 apply list_elem_of_further. apply list_elem_of_here.
Defined.

(** * Error isolation in the batch *)







